(** * Content resolution layer (src/deps/content.js)

    A shallow embedding of the two classes of [content.js], [ContentFile]
    and [ContentLoader], and the properties of the resolution protocol
    proved about them.

    The modules the file requires but does not define ([is-dir.js],
    [fsp.js], [yaml-prefix.js], and the packages [path], [is-glob],
    [micromatch] and [yaml]) are interfaces here: every definition is
    parametric in them, and [Demo] supplies one small instance to run the
    code on concrete inputs. *)

From Stdlib Require Import Ascii String.
From stdpp Require Import gmap strings list.

Set Default Proof Using "Type".

(** ** JavaScript values

    A value of type [A], or one of the two empty values of the language.
    [Undefined] is the value of a missing argument or property, and the
    marker that [ContentFile] uses for a body that was not read yet. *)

Inductive jsval (A : Type) : Type :=
| Undefined
| Null
| Val (a : A).

Arguments Undefined {A}.
Arguments Null {A}.
Arguments Val {A} a.

(** A default parameter [x=null] takes its default when the argument is
    missing and also when [undefined] is passed for it. *)
Definition default_null {A} (x : jsval A) : jsval A :=
  match x with
  | Undefined => Null
  | _ => x
  end.

(** ** Collaborators *)

(** The calls made on the collaborators, most recent first. *)
Inductive Event : Type :=
| EvIsDir (p : jsval string)
| EvReaddir (p : string)
| EvReadFile (p : jsval string)
| EvYamlPrefix (text : string)
| EvYamlParse (text : string).

Definition Trace := list Event.

Definition is_read (e : Event) : bool :=
  match e with
  | EvReadFile _ => true
  | _ => false
  end.

Definition is_parse (e : Event) : bool :=
  match e with
  | EvYamlPrefix _ | EvYamlParse _ => true
  | _ => false
  end.

(** Number of file reads, and of parser runs, in a trace. *)
Definition reads (tr : Trace) : nat := length (filter (λ e, is_read e = true) tr).
Definition parses (tr : Trace) : nat := length (filter (λ e, is_parse e = true) tr).

Definition is_readdir (e : Event) : bool :=
  match e with
  | EvReaddir _ => true
  | _ => false
  end.

(** Number of directory listings in a trace. *)
Definition readdirs (tr : Trace) : nat := length (filter (λ e, is_readdir e = true) tr).

(** The two ways in which the result of [isDir] is used: as a condition,
    and compared with [=== false]. *)
Definition truthy (v : jsval bool) : bool :=
  match v with
  | Val true => true
  | _ => false
  end.

Definition strictly_false (v : jsval bool) : bool :=
  match v with
  | Val false => true
  | _ => false
  end.

(** [is-dir.js] and [fsp.js]. The path argument is a JavaScript value:
    [ContentFile.read] passes [this.path]. The result of [isDir] is one
    too: the file does not say that it is always a boolean, and tests it
    in both ways. [None] is a failed operation. *)
Class Storage := {
  isDir : jsval string → jsval bool;
  readdir : string → option (list string);
  readFile : jsval string → option string
}.

(** [is-glob] and [micromatch]: [isMatch str pattern], and [match] on a
    list of names. *)
Class GlobLib := {
  isGlob : string → bool;
  isMatch : string → string → bool;
  micromatch_match : list string → string → list string
}.

Record ParsedPath := { parsed_dir : string; parsed_base : string; parsed_ext : string }.

(** The functions of Node's [path] that the file calls. *)
Class PathLib := {
  normalize : string → string;
  join : string → string → string;
  dirname : string → string;
  basename : string → string;
  extname : string → string;
  parse : string → ParsedPath
}.

Record YamlPrefixOut (Config : Type) := { out_config : jsval Config; out_rest : string }.
Arguments out_config {Config} _.
Arguments out_rest {Config} _.

(** [yaml-prefix.js] and [YAML.parse]; [None] is a parse error. *)
Class Parsers (Config : Type) := {
  yamlPrefix : string → option (YamlPrefixOut Config);
  YAML_parse : string → option (jsval Config)
}.

(** ** Results and the state monad of the code *)

Inductive Error : Type :=
| GlobRead          (* can't glob read() *)
| MatchedMany       (* somehow matched more than one file *)
| GlobDirectory     (* glob parts unsupported in directory, use shell *)
| StorageFailure (e : Event)
| ParseFailure (e : Event).

Inductive result (A : Type) : Type :=
| Ok (a : A)
| Throw (e : Error)
| OutOfFuel.

Arguments Ok {A} a.
Arguments Throw {A} e.
Arguments OutOfFuel {A}.

Definition M (S A : Type) : Type := S → result A * S.

Definition ret {S A} (a : A) : M S A := λ s, (Ok a, s).
Definition throw {S A} (e : Error) : M S A := λ s, (Throw e, s).
Definition out_of_fuel {S A} : M S A := λ s, (OutOfFuel, s).

Definition bind {S A B} (m : M S A) (k : A → M S B) : M S B :=
  λ s, match m s with
       | (Ok a, s') => k a s'
       | (Throw e, s') => (Throw e, s')
       | (OutOfFuel, s') => (OutOfFuel, s')
       end.

(** [m] gives a result, that is, it does not stop for lack of fuel. *)
Definition total {S A} (m : M S A) : Prop := ∀ s, (m s).1 ≠ OutOfFuel.

Notation "'let*' x ':=' m 'in' k" := (bind m (λ x, k))
  (at level 10, x name, m at level 100, k at level 200).
Notation "'let*' ' pat ':=' m 'in' k" := (bind m (λ x, match x with pat => k end))
  (at level 10, pat pattern, m at level 100, k at level 200).

(** The collaborators as traced operations. *)
Section TracedCalls.
Context `{Storage} {Config : Type} `{Parsers Config}.

Definition call {A} (e : Event) (r : option A) (err : Event → Error) : M Trace A :=
  λ tr, match r with
        | Some a => (Ok a, e :: tr)
        | None => (Throw (err e), e :: tr)
        end.

Definition io_isDir (p : jsval string) : M Trace (jsval bool) :=
  λ tr, (Ok (isDir p), EvIsDir p :: tr).
Definition io_readdir (p : string) : M Trace (list string) :=
  call (EvReaddir p) (readdir p) StorageFailure.
Definition io_readFile (p : jsval string) : M Trace string :=
  call (EvReadFile p) (readFile p) StorageFailure.
Definition run_yamlPrefix (text : string) : M Trace (YamlPrefixOut Config) :=
  call (EvYamlPrefix text) (yamlPrefix text) ParseFailure.
Definition run_YAML_parse (text : string) : M Trace (jsval Config) :=
  call (EvYamlParse text) (YAML_parse text) ParseFailure.
End TracedCalls.

(** ** class ContentFile *)

Module ContentFile.

(** What the [content] field holds: a plain value, or the promise that
    [fsp.readFile] returned, with the way it settles. *)
Inductive Content : Type :=
| Plain (v : jsval string)
| Promise (settled : option string).

Record t (Config : Type) := {
  config : jsval Config;
  content : Content;
  ext : string;
  dir : string;
  base : string
}.
Arguments config {Config} _.
Arguments content {Config} _.
Arguments ext {Config} _.
Arguments dir {Config} _.
Arguments base {Config} _.

Definition set_content {Config} (this : t Config) (c : Content) : t Config :=
  {| config := config this; content := c;
     ext := ext this; dir := dir this; base := base this |}.

(** [this.path]: the constructor assigns [config], [content], [ext],
    [dir] and [base], and the class has no accessor of that name, so the
    property lookup gives [undefined]. *)
Definition path {Config} (this : t Config) : jsval string := Undefined.

Definition alwaysReadSource : list string := [".md"; ".yaml"; ".html"].

Section Methods.
Context `{Storage} `{PathLib} {Config : Type} `{Parsers Config}.

(** [constructor(fullPath, config=null, content=null)] *)
Definition new (fullPath : string) (config : jsval Config)
    (content : jsval string) : t Config :=
  let config := default_null config in
  let content := default_null content in
  let parsed := parse fullPath in
  {| config := config; content := Plain content;
     ext := parsed_ext parsed; dir := parsed_dir parsed;
     base := parsed_base parsed |}.

(** What awaiting a promise of [fsp.readFile] gives. *)
Definition await (e : Event) (settled : option string) : result (jsval string) :=
  match settled with
  | Some text => Ok (Val text)
  | None => Throw (StorageFailure e)
  end.

(** [async read()], on the object and the trace. The promise is stored
    in [this.content] without being awaited; the [return] awaits it. *)
Definition read (this : t Config) (tr : Trace)
    : result (jsval string) * t Config * Trace :=
  match content this with
  | Plain Undefined =>
      let tr := EvIsDir (path this) :: tr in
      if strictly_false (isDir (path this)) then
        let p := readFile (path this) in
        (await (EvReadFile (path this)) p, set_content this (Promise p),
         EvReadFile (path this) :: tr)
      else
        (Ok Null, set_content this (Plain Null), tr)
  | Plain v => (Ok v, this, tr)
  | Promise p => (await (EvReadFile (path this)) p, this, tr)
  end.

(** [n] calls of [read()] in a row, with their results in order. *)
Fixpoint read_times (n : nat) (this : t Config) (tr : Trace)
    : list (result (jsval string)) * t Config * Trace :=
  match n with
  | 0 => ([], this, tr)
  | S n =>
      let '(r, this, tr) := read this tr in
      let '(rs, this, tr) := read_times n this tr in
      (r :: rs, this, tr)
  end.

(** [static async _buildFromSource(fullPath)] *)
Definition _buildFromSource (fullPath : string) : M Trace (t Config) :=
  let ext := extname fullPath in
  if bool_decide (ext ∈ alwaysReadSource) then
    let* content := io_readFile (Val fullPath) in
    if String.eqb ext ".md" then
      let* out := run_yamlPrefix content in
      ret (new fullPath (out_config out) (Val (out_rest out)))
    else if String.eqb ext ".yaml" then
      let* config := run_YAML_parse content in
      ret (new fullPath config (Val content))
    else
      ret (new fullPath Null (Val content))
  else
    ret (new fullPath Null Undefined).
End Methods.

End ContentFile.

(** ** class ContentLoader *)

Module ContentLoader.

(** One element of [this._gen]. The generator is whatever the caller
    gave to [register]. *)
Record Registration (Gen : Type) := {
  reg_dir : string;
  reg_name : string;
  reg_gen : jsval Gen
}.
Arguments reg_dir {Gen} _.
Arguments reg_name {Gen} _.
Arguments reg_gen {Gen} _.

(** One object [{name, gen}] of the array that [_virtual] returns. *)
Record Virtual (Gen : Type) := { v_name : string; v_gen : jsval Gen }.
Arguments v_name {Gen} _.
Arguments v_gen {Gen} _.

(** One object [{path, gen, cf}] made by [_outputFor]. *)
Record Output (Config Gen : Type) := {
  path : string;
  gen : jsval Gen;
  cf : ContentFile.t Config
}.
Arguments path {Config Gen} _.
Arguments gen {Config Gen} _.
Arguments cf {Config Gen} _.

(** [this._cache] is a plain object [{}] used as a map from paths, so a
    lookup finds the properties that [_outputFor] has stored and also the
    ones that every such object inherits: the property names of
    [Object.prototype]. *)
Definition object_prototype_keys : list string :=
  ["constructor"; "__defineGetter__"; "__defineSetter__"; "hasOwnProperty";
   "__lookupGetter__"; "__lookupSetter__"; "isPrototypeOf";
   "propertyIsEnumerable"; "toString"; "valueOf"; "__proto__"; "toLocaleString"].

Definition inherited (key : string) : bool :=
  bool_decide (key ∈ object_prototype_keys).

(** Objects have an identity: the [Output] objects live in a heap, and
    the stored properties of the cache hold their places in it. What
    [_outputFor] returns, and so what the result lists hold, is a
    reference to one of these objects, or the built-in function or object
    that [Object.prototype] has under a key. A number, where a reference
    is expected, stands for the object at that place of the heap. *)
Inductive ref : Type :=
| Obj (n : nat)
| Builtin (key : string).

Coercion Obj : nat >-> ref.

(** A loader, the [Output] objects allocated so far, and the trace of
    the calls made on the collaborators. [_cache] holds the properties
    that the loader has stored in its cache object. *)
Record t (Config Gen : Type) := {
  _dir : string;
  _gen : list (Registration Gen);
  _cache : gmap string nat;
  heap : list (Output Config Gen);
  trace : Trace
}.
Arguments _dir {Config Gen} _.
Arguments _gen {Config Gen} _.
Arguments _cache {Config Gen} _.
Arguments heap {Config Gen} _.
Arguments trace {Config Gen} _.

Section Methods.
Context `{Storage} `{GlobLib} `{PathLib} {Config Gen : Type} `{Parsers Config}.

Abbreviation Loader := (t Config Gen).

(** [constructor(dir)] *)
Definition new (dir : string) : Loader :=
  {| _dir := dir; _gen := []; _cache := ∅; heap := []; trace := [] |}.

(** [register(dir, name, gen)] *)
Definition register (dir name : string) (g : jsval Gen) (this : Loader) : Loader :=
  {| _dir := _dir this;
     _gen := _gen this ++ [{| reg_dir := dir; reg_name := name; reg_gen := g |}];
     _cache := _cache this; heap := heap this; trace := trace this |}.

Definition with_trace (this : Loader) (tr : Trace) : Loader :=
  {| _dir := _dir this; _gen := _gen this; _cache := _cache this;
     heap := heap this; trace := tr |}.

(** Runs a traced call of a collaborator on the trace of the loader. *)
Definition lift {A} (m : M Trace A) : M Loader A :=
  λ this, let '(r, tr) := m (trace this) in (r, with_trace this tr).

(** The body of the [map] callback of [_virtual]; [None] is its [null]. *)
Definition virtual_of (candidateDir candidateName : string)
    (r : Registration Gen) : option (Virtual Gen) :=
  if negb (isMatch candidateDir (reg_dir r)) then None
  else if isMatch candidateName (reg_name r) then
    Some {| v_name := candidateName; v_gen := reg_gen r |}
  else if negb (isGlob (reg_name r)) then
    if String.eqb candidateName "*" || isMatch (reg_name r) candidateName then
      Some {| v_name := reg_name r; v_gen := reg_gen r |}
    else None
  else None.

(** [_virtual(candidateDir, candidateName='*')]: [map], then the
    [filter] that drops the [null]s. *)
Definition _virtual (this : Loader) (candidateDir candidateName : string)
    : list (Virtual Gen) :=
  omap (virtual_of candidateDir candidateName) (_gen this).

(** [this._cache[fullPath]]: the stored property, or else the inherited
    one; [None] is [undefined]. *)
Definition cache_get (this : Loader) (fullPath : string) : option ref :=
  match _cache this !! fullPath with
  | Some n => Some (Obj n)
  | None => if inherited fullPath then Some (Builtin fullPath) else None
  end.

(** [this._cache[fullPath] = v], with the object [v] put in the heap. The
    assignment replaces what was stored under the path. *)
Definition store (fullPath : string) (v : Output Config Gen) : M Loader ref :=
  λ this, let r := length (heap this) in
          (Ok (Obj r), {| _dir := _dir this; _gen := _gen this;
                          _cache := <[fullPath := r]> (_cache this);
                          heap := heap this ++ [v]; trace := trace this |}).

(** [_outputFor] is an [async] function with one [await] between the test
    of the cache and the assignment to it: the one of
    [ContentFile._buildFromSource], for a path that is not found and has no
    generator. The call is suspended there and other calls on the loader
    can run. [Settled v]: the call got to its [return v] without an
    [await]. [Awaiting v]: the call has found nothing under the path and
    waits for the record of [v], to store [v] then. The construction of the
    record does not touch the loader, and its events are put in the trace
    when the wait begins. *)
Inductive Pending : Type :=
| Settled (v : ref)
| Awaiting (v : Output Config Gen).

(** [_outputFor] up to its [await]. *)
Definition _outputFor_begin (fullPath : string) (g : jsval Gen) : M Loader Pending :=
  λ this,
    match cache_get this fullPath with
    | Some v => (Ok (Settled v), this)
    | None =>
        match g with
        | Undefined =>
            (let* file := lift (ContentFile._buildFromSource fullPath) in
             ret (Awaiting {| path := fullPath; gen := g; cf := file |})) this
        | _ =>
            (let* v := store fullPath
                         {| path := fullPath; gen := g;
                            cf := ContentFile.new fullPath Undefined Undefined |} in
             ret (Settled v)) this
        end
    end.

(** [_outputFor] from its [await] on. *)
Definition _outputFor_end (fullPath : string) (pending : Pending) : M Loader ref :=
  match pending with
  | Settled v => ret v
  | Awaiting v => store fullPath v
  end.

(** [async _outputFor(fullPath, gen=undefined)], when no other call on the
    loader runs while it is suspended. [real_loop], [virtual_loop], [walk],
    [_contents], [contents] and [get] below are built on it: they are the
    calls that no other call on the loader overlaps. *)
Definition _outputFor (fullPath : string) (g : jsval Gen) : M Loader ref :=
  let* pending := _outputFor_begin fullPath g in
  _outputFor_end fullPath pending.

(** The first [for] loop of [_contents], over the matched names. *)
Fixpoint real_loop (currentDir : string) (recurse : bool)
    (matchedFiles : list string) (pendingDir : list string) (out : list ref)
    : M Loader (list string * list ref) :=
  match matchedFiles with
  | [] => ret (pendingDir, out)
  | raw :: matchedFiles =>
      let fullPath := join currentDir raw in
      let* d := lift (io_isDir (Val fullPath)) in
      if truthy d then
        real_loop currentDir recurse matchedFiles
          (if recurse then pendingDir ++ [fullPath] else pendingDir) out
      else
        let* v := _outputFor fullPath Undefined in
        real_loop currentDir recurse matchedFiles pendingDir (out ++ [v])
  end.

(** The second [for] loop, over the virtual files. *)
Fixpoint virtual_loop (currentDir : string) (virtualFiles : list (Virtual Gen))
    (out : list ref) : M Loader (list ref) :=
  match virtualFiles with
  | [] => ret out
  | vf :: virtualFiles =>
      let fullPath := join currentDir (v_name vf) in
      let* v := _outputFor fullPath (v_gen vf) in
      virtual_loop currentDir virtualFiles (out ++ [v])
  end.

(** The [while (pendingDir.length)] loop; one unit of fuel for each
    directory taken from the queue. *)
Fixpoint walk (fuel : nat) (pendingDir : list string) (globName : string)
    (recurse : bool) (out : list ref) : M Loader (list ref) :=
  match pendingDir with
  | [] => ret out
  | currentDir :: pendingDir =>
      match fuel with
      | 0 => out_of_fuel
      | S fuel =>
          let* dirContent := lift (io_readdir currentDir) in
          let matchedFiles :=
            if String.eqb globName "*" then dirContent
            else micromatch_match dirContent globName in
          let* '(pendingDir, out) :=
            real_loop currentDir recurse matchedFiles pendingDir out in
          let* virtualFiles := (λ this, (Ok (_virtual this currentDir globName), this)) in
          let* out := virtual_loop currentDir virtualFiles out in
          walk fuel pendingDir "*" recurse out
      end
  end.

(** [async _contents(rootDir, globName, recurse)]. No element of [out]
    is [null], so the final [filter] keeps all of it. *)
Definition _contents (fuel : nat) (rootDir globName : string) (recurse : bool)
    : M Loader (list ref) :=
  let* d := lift (io_isDir (Val rootDir)) in
  if negb (truthy d) then ret []
  else walk fuel [rootDir] globName recurse [].

(** [async contents(req, recurse=false)] *)
Definition contents (fuel : nat) (req : string) (recurse : bool)
    : M Loader (list ref) :=
  let req := normalize req in
  let* d := lift (io_isDir (Val req)) in
  if truthy d then _contents fuel req "*" recurse
  else
    let dir := dirname req in
    if isGlob dir then throw GlobDirectory
    else
      let name := basename req in
      _contents fuel dir name recurse.

(** [async get(req)]; [None] is [null]. *)
Definition get (fuel : nat) (req : string) : M Loader (option ref) :=
  if isGlob req then throw GlobRead
  else
    let* out := contents fuel req false in
    if 1 <? length out then throw MatchedMany
    else if length out =? 0 then ret None
    else ret (out !! 0).

(** [v.cf.read()] on the object [v] at a place of the heap: the record
    is updated in place, so every holder of [v] sees the new content.
    [None] when there is no object at that place. *)
Definition read_at (v : nat) (this : Loader)
    : option (result (jsval string) * Loader) :=
  match heap this !! v with
  | Some o =>
      let '(r, file, tr) := ContentFile.read (cf o) (trace this) in
      Some (r, {| _dir := _dir this; _gen := _gen this; _cache := _cache this;
                  heap := <[v := {| path := path o; gen := gen o; cf := file |}]>
                            (heap this);
                  trace := tr |})
  | None => None
  end.

(** What a client can do with a loader, and the loader after a call,
    however the call ends. *)
Inductive Call : Type :=
| CallRegister (dir name : string) (g : jsval Gen)
| CallContents (fuel : nat) (req : string) (recurse : bool)
| CallGet (fuel : nat) (req : string)
| CallOutputFor (fullPath : string) (g : jsval Gen)
| CallRead (v : nat).

Definition after (c : Call) (this : Loader) : Loader :=
  match c with
  | CallRegister dir name g => register dir name g this
  | CallContents fuel req recurse => (contents fuel req recurse this).2
  | CallGet fuel req => (get fuel req this).2
  | CallOutputFor fullPath g => (_outputFor fullPath g this).2
  | CallRead v =>
      match read_at v this with
      | Some (_, later) => later
      | None => this
      end
  end.

Definition after_all (cs : list Call) (this : Loader) : Loader :=
  foldl (λ s c, after c s) this cs.
End Methods.

(** The three outcomes of [get] after [contents] has returned [out],
    as the properties state them. *)
Definition sole (out : list ref) : result (option ref) :=
  match out with
  | [] => Ok None
  | [v] => Ok (Some v)
  | _ => Throw MatchedMany
  end.

(** The predicates on loaders that the properties are stated with. *)
Section Predicates.
Context {Config Gen : Type}.

Abbreviation Loader := (t Config Gen).

(** The [path] fields of the objects that a list refers to. *)
Definition paths_of (this : Loader) (out : list ref) : list string :=
  omap (λ v, match v with
             | Obj n => path <$> heap this !! n
             | Builtin _ => None
             end) out.

(** The object at the place [n] was made for the path [p]. *)
Definition has_path (this : Loader) (n : nat) (p : string) : Prop :=
  ∃ o, heap this !! n = Some o ∧ path o = p.

(** Every stored key of the cache leads to an object made for that key,
    and is not an inherited key. *)
Definition wf (this : Loader) : Prop :=
  ∀ p n, _cache this !! p = Some n → inherited p = false ∧ has_path this n p.

(** The object at the place [n] is the one that the cache holds for its
    path. *)
Definition cached (this : Loader) (n : nat) : Prop :=
  ∃ o, heap this !! n = Some o ∧ _cache this !! path o = Some n.

(** What an element of a result list is: an object that the cache holds
    for its path, or the built-in of an inherited key. *)
Definition listed (this : Loader) (v : ref) : Prop :=
  match v with
  | Obj n => cached this n
  | Builtin key => inherited key = true
  end.

(** [v] is what the path [p] resolves to: an object made for [p], or, for
    an inherited key [p], the built-in that the cache object has under
    it. *)
Definition resolves (this : Loader) (v : ref) (p : string) : Prop :=
  match v with
  | Obj n => has_path this n p
  | Builtin key => key = p ∧ inherited p = true
  end.

(** [later] is the loader at a later time: the cache has kept its
    entries, and the objects their place, path and generator. *)
Definition grows (this later : Loader) : Prop :=
  (∀ p n, _cache this !! p = Some n → _cache later !! p = Some n) ∧
  (∀ n o, heap this !! n = Some o →
     ∃ o', heap later !! n = Some o' ∧ path o' = path o ∧ gen o' = gen o).

(** [v] is the entry of the real file [p] in a loader that was [before]
    when the listing began: an object with the path [p] that the cache
    holds for [p], without a generator unless the cache held an entry for
    [p] before; or, for an inherited key [p], the built-in under it. *)
Definition recorded (before this : Loader) (v : ref) (p : string) : Prop :=
  match v with
  | Obj n => ∃ o, _cache this !! p = Some n ∧ heap this !! n = Some o ∧ path o = p ∧
               (_cache before !! p = None → gen o = Undefined)
  | Builtin key => key = p ∧ inherited p = true
  end.

(** What a suspended [_outputFor] for the path [p] holds: an object made
    for [p], which is not an inherited key. *)
Definition pending_for (p : string) (pending : Pending (Config:=Config) (Gen:=Gen)) : Prop :=
  match pending with
  | Settled _ => True
  | Awaiting o => path o = p ∧ inherited p = false
  end.
End Predicates.

(** What a walk does with the names of one directory, as the properties
    of the walk state it. *)
Section Listings.
Context `{Storage} `{GlobLib} `{PathLib}.

(** The names that the pattern keeps: all of them under the star. *)
Definition selected (names : list string) (globName : string) : list string :=
  if String.eqb globName "*" then names else micromatch_match names globName.

(** The paths of the names that are not directories, and of those that
    are, in the order of the listing. *)
Definition files_in (currentDir : string) (names : list string) : list string :=
  join currentDir <$>
    filter (λ raw, truthy (isDir (Val (join currentDir raw))) = false) names.

Definition dirs_in (currentDir : string) (names : list string) : list string :=
  join currentDir <$>
    filter (λ raw, truthy (isDir (Val (join currentDir raw))) = true) names.
End Listings.

(** Two more invariants of the loaders that a client can reach. *)
Section Invariants.
Context {Config Gen : Type}.

(** Every object is the entry that the cache holds for its own path. *)
Definition tidy (this : t Config Gen) : Prop :=
  ∀ v o, heap this !! v = Some o → _cache this !! path o = Some v.

(** The content of every record is a value other than the unread marker. *)
Definition resolved (this : t Config Gen) : Prop :=
  ∀ v o, heap this !! v = Some o →
    ∃ c, ContentFile.content (cf o) = ContentFile.Plain c ∧ c ≠ Undefined.
End Invariants.

(** The registrations that a list of calls makes, in order. *)
Definition registered {Gen : Type} (cs : list (Call (Gen:=Gen))) : list (Registration Gen) :=
  omap (λ c, match c with
             | CallRegister dir name g =>
                 Some {| reg_dir := dir; reg_name := name; reg_gen := g |}
             | _ => None
             end) cs.

End ContentLoader.

(** ** A concrete instance

    One small set of collaborators, to run the code on concrete inputs:
    POSIX paths that are already normal, patterns whose only special
    character is the star, a storage given by two tables, and documents
    whose parsed form is their own text. *)

Module Demo.

(** Splits at the last occurrence of [sep]. *)
Fixpoint split_last (sep : ascii) (s : string) : option (string * string) :=
  match s with
  | EmptyString => None
  | String c s' =>
      match split_last sep s' with
      | Some (a, b) => Some (String c a, b)
      | None => if Ascii.eqb c sep then Some (EmptyString, s') else None
      end
  end.

Definition demo_dirname (p : string) : string :=
  match split_last "/" p with
  | Some (d, _) => if String.eqb d EmptyString then "/" else d
  | None => "."
  end.

Definition demo_basename (p : string) : string :=
  match split_last "/" p with
  | Some (_, b) => b
  | None => p
  end.

Definition demo_extname (p : string) : string :=
  match split_last "." (demo_basename p) with
  | Some (stem, e) => if String.eqb stem EmptyString then EmptyString else String "." e
  | None => EmptyString
  end.

Definition demo_join (a b : string) : string :=
  if String.eqb a "." then b else a +:+ "/" +:+ b.

#[export] Instance paths : PathLib := {|
  normalize := λ p, p;
  join := demo_join;
  dirname := demo_dirname;
  basename := demo_basename;
  extname := demo_extname;
  parse := λ p, {| parsed_dir := demo_dirname p; parsed_base := demo_basename p;
                   parsed_ext := demo_extname p |}
|}.

(** [wild pat str]: a star matches any run of characters other than the
    separator, every other character matches itself. *)
Fixpoint wild (pat str : string) : bool :=
  match pat with
  | EmptyString => match str with EmptyString => true | _ => false end
  | String p pat' =>
      if Ascii.eqb p "*" then
        (fix star (str : string) : bool :=
           wild pat' str ||
           match str with
           | EmptyString => false
           | String c str' => if Ascii.eqb c "/" then false else star str'
           end) str
      else
        match str with
        | String c str' => Ascii.eqb p c && wild pat' str'
        | EmptyString => false
        end
  end.

Fixpoint has_star (s : string) : bool :=
  match s with
  | EmptyString => false
  | String c s' => Ascii.eqb c "*" || has_star s'
  end.

#[export] Instance globs : GlobLib := {|
  isGlob := has_star;
  isMatch := λ str pat, wild pat str;
  micromatch_match := λ names pat, List.filter (wild pat) names
|}.

Definition nl : string := String "010" EmptyString.

(** The directories with their entries, and the files with their text. *)
Definition dirs : list (string * list string) :=
  [ (".", ["a*"; "constructor"; "pages"; "valueOf"]);
    ("pages", ["foo"]);
    ("pages/foo", ["data.yaml"; "img"; "index.html"; "notes.txt"; "post.md"]);
    ("pages/foo/img", ["logo.png"]);
    ("a*", ["x.txt"]) ].

Definition files : list (string * string) :=
  [ ("constructor", "c");
    ("valueOf", "v");
    ("pages/foo/data.yaml", "title: T");
    ("pages/foo/index.html", "<p>hi</p>");
    ("pages/foo/notes.txt", "hello");
    ("pages/foo/post.md", "---" +:+ nl +:+ "title: T" +:+ nl +:+ "---" +:+ nl +:+ "body");
    ("pages/foo/img/logo.png", "PNG");
    ("a*/x.txt", "x") ].

Fixpoint assoc {A} (k : string) (l : list (string * A)) : option A :=
  match l with
  | [] => None
  | (k', a) :: l => if String.eqb k k' then Some a else assoc k l
  end.

(** [isDir] is [true] on a directory, [false] on a file and [null] on a
    path that names nothing; a path that is not a string names nothing. *)
#[export] Instance storage : Storage := {|
  isDir := λ p, match p with
                | Val p =>
                    match assoc p dirs, assoc p files with
                    | Some _, _ => Val true
                    | None, Some _ => Val false
                    | None, None => Null
                    end
                | _ => Null
                end;
  readdir := λ p, assoc p dirs;
  readFile := λ p, match p with
                   | Val p => assoc p files
                   | _ => None
                   end
|}.

(** [split_at sub s]: the text before and after the first occurrence
    of [sub] in [s]. *)
Fixpoint split_at (sub s : string) : option (string * string) :=
  if String.prefix sub s then
    Some (EmptyString, String.substring (String.length sub)
                         (String.length s - String.length sub) s)
  else
    match s with
    | EmptyString => None
    | String c s' =>
        match split_at sub s' with
        | Some (a, b) => Some (String c a, b)
        | None => None
        end
    end.

Definition fence : string := "---" +:+ nl.

(** The block between a leading fence and the next one. *)
Definition demo_yamlPrefix (text : string) : option (YamlPrefixOut string) :=
  if String.prefix fence text then
    let after := String.substring 4 (String.length text - 4) text in
    match split_at fence after with
    | Some (block, rest) => Some {| out_config := Val block; out_rest := rest |}
    | None => Some {| out_config := Null; out_rest := text |}
    end
  else Some {| out_config := Null; out_rest := text |}.

#[export] Instance parsers : Parsers string := {|
  yamlPrefix := demo_yamlPrefix;
  YAML_parse := λ text, if String.eqb text EmptyString then Some Null else Some (Val text)
|}.

(** A loader with two registrations: one concrete file name, and one
    name that is a glob. *)
Definition loader : ContentLoader.t string string :=
  ContentLoader.register "pages/*" "draft-*.md" (Val "drafts")
    (ContentLoader.register "pages/*" "index.html" (Val "index")
       (ContentLoader.new "pages")).

End Demo.



(** * Properties *)

(** ** The monad *)

Section Monad.
Context {S A B : Type}.

Lemma bind_inv (m : M S A) (k : A → M S B) (s : S) (r : result B) (s' : S) :
  bind m k s = (r, s') →
  (∃ a s1, m s = (Ok a, s1) ∧ k a s1 = (r, s')) ∨
  (∃ e, m s = (Throw e, s') ∧ r = Throw e) ∨
  (m s = (OutOfFuel, s') ∧ r = OutOfFuel).
Proof.
  unfold bind. destruct (m s) as [[a|e|] s1]; intros Hk.
  - left. eauto.
  - right. left. exists e. by inversion Hk.
  - right. right. by inversion Hk.
Qed.

Lemma bind_ok (m : M S A) (k : A → M S B) (s s1 : S) (a : A) :
  m s = (Ok a, s1) → bind m k s = k a s1.
Proof. unfold bind. by intros ->. Qed.
End Monad.

Ltac bind_cases H a s1 H1 :=
  apply bind_inv in H as [(a & s1 & H1 & H) | [(? & H1 & ->) | (H1 & ->)]].

(** ** The cache of a loader *)

Section Cache.
Context `{Storage} `{GlobLib} `{PathLib} {Config Gen : Type} `{Parsers Config}.
Import ContentLoader.

Implicit Types (s : ContentLoader.t Config Gen) (v : ref) (n : nat) (p : string).

Lemma grows_refl s : grows s s.
Proof. split; eauto. Qed.

Lemma grows_trans s1 s2 s3 : grows s1 s2 → grows s2 s3 → grows s1 s3.
Proof.
  intros [Hc1 Hh1] [Hc2 Hh2]. split; [eauto|].
  intros n o Ho. destruct (Hh1 _ _ Ho) as (o1 & Ho1 & Hp1 & Hg1).
  destruct (Hh2 _ _ Ho1) as (o2 & Ho2 & Hp2 & Hg2).
  exists o2. split_and!; congruence.
Qed.

Lemma has_path_grows s s' n p : grows s s' → has_path s n p → has_path s' n p.
Proof.
  intros [_ Hh] (o & Ho & <-). destruct (Hh _ _ Ho) as (o' & ? & ? & _).
  by exists o'.
Qed.

Lemma cached_grows s s' n : grows s s' → cached s n → cached s' n.
Proof.
  intros [Hc Hh] (o & Ho & Hv). destruct (Hh _ _ Ho) as (o' & ? & Hp & _).
  exists o'. split; [done|]. rewrite Hp. by apply Hc.
Qed.

Lemma listed_grows s s' v : grows s s' → listed s v → listed s' v.
Proof. destruct v as [n|key]; [apply cached_grows|done]. Qed.

Lemma resolves_grows s s' v p : grows s s' → resolves s v p → resolves s' v p.
Proof. destruct v as [n|key]; [apply has_path_grows|done]. Qed.

Lemma Forall_listed_grows s s' (out : list ref) :
  grows s s' → Forall (listed s) out → Forall (listed s') out.
Proof.
  intros Hg Hall. eapply Forall_impl; [done|]. intros v. by apply listed_grows.
Qed.

Lemma wf_cached s p n : wf s → _cache s !! p = Some n → cached s n.
Proof. intros Hwf Hv. destruct (Hwf _ _ Hv) as (_ & o & Ho & <-). by exists o. Qed.

(** What the lookup finds is what it finds later. *)
Lemma cache_get_grows s s' p v :
  wf s' → grows s s' → cache_get s p = Some v → cache_get s' p = Some v.
Proof.
  intros Hwf' [Hc _]. unfold cache_get.
  destruct (_cache s !! p) as [n|] eqn:Hn.
  { intros [= <-]. by rewrite (Hc _ _ Hn). }
  destruct (inherited p) eqn:Hp; [|done]. intros [= <-].
  destruct (_cache s' !! p) as [n'|] eqn:Hn'; [|done].
  destruct (Hwf' _ _ Hn') as [? _]. congruence.
Qed.

(** What the lookup finds is listed, and is what the path resolves to. *)
Lemma cache_get_listed s p v :
  wf s → cache_get s p = Some v → listed s v ∧ resolves s v p.
Proof.
  intros Hwf. unfold cache_get. destruct (_cache s !! p) as [n|] eqn:Hn.
  { intros [= <-]. split; [by eapply wf_cached|by apply Hwf]. }
  destruct (inherited p) eqn:Hp; [|done]. by intros [= <-].
Qed.

(** A traced call changes the trace only. *)
Lemma lift_inv {A} (m : M Trace A) s (r : result A) s' :
  lift m s = (r, s') → m (trace s) = (r, trace s') ∧ s' = with_trace s (trace s').
Proof.
  unfold lift. destruct (m (trace s)) as [r1 tr]. intros [= <- <-]. done.
Qed.

Lemma with_trace_wf s tr : wf s → wf (with_trace s tr).
Proof. done. Qed.

Lemma with_trace_grows s tr : grows s (with_trace s tr).
Proof. split; eauto. Qed.

(** [_outputFor] without an overlapping call, in one piece. *)
Lemma _outputFor_run p (g : jsval Gen) s :
  _outputFor p g s =
    match cache_get s p with
    | Some v => (Ok v, s)
    | None =>
        (let* file :=
           match g with
           | Undefined => lift (ContentFile._buildFromSource p)
           | _ => ret (ContentFile.new p Undefined Undefined)
           end in
         store p {| path := p; gen := g; cf := file |}) s
    end.
Proof.
  unfold _outputFor, _outputFor_begin, bind at 1.
  destruct (cache_get s p) as [v|]; [done|].
  destruct g as [| |g]; [|done..]. unfold bind.
  by destruct (lift _ s) as [[file|e|] s1].
Qed.

(** [_outputFor] keeps the cache sound, only adds to it, and returns what
    the lookup of the path finds afterwards. *)
Lemma _outputFor_inv p (g : jsval Gen) s (r : result ref) s' :
  _outputFor p g s = (r, s') → wf s →
  wf s' ∧ grows s s' ∧ _gen s' = _gen s ∧
  ∀ v, r = Ok v → cache_get s' p = Some v ∧ listed s' v ∧ resolves s' v p.
Proof.
  rewrite _outputFor_run. intros Hrun Hwf.
  destruct (cache_get s p) as [v0|] eqn:Hlook.
  - injection Hrun as <- <-. split_and!; [done|apply grows_refl|done|].
    intros v [= <-]. split; [done|]. by apply cache_get_listed.
  - assert (Hnone : _cache s !! p = None ∧ inherited p = false).
    { unfold cache_get in Hlook. destruct (_cache s !! p); [done|].
      by destruct (inherited p). }
    destruct Hnone as [Hnone Hown].
    assert (Hfile : ∀ (file : result (ContentFile.t Config)) s1,
      match g with
      | Undefined => lift (ContentFile._buildFromSource p)
      | _ => ret (ContentFile.new p Undefined Undefined)
      end s = (file, s1) → s1 = with_trace s (trace s1)).
    { intros file s1. destruct g; [intros Hl; by apply lift_inv in Hl as [_ ?]|..];
        intros [= _ <-]; by destruct s. }
    bind_cases Hrun file s1 Hb; apply Hfile in Hb;
      [|rewrite Hb; split_and!; [done|apply with_trace_grows|done|done]..].
    unfold store in Hrun. injection Hrun as <- <-. rewrite Hb. simpl.
    assert (Hnew : has_path
      {| _dir := _dir s; _gen := _gen s;
         _cache := <[p := length (heap s)]> (_cache s);
         heap := heap s ++ [{| path := p; gen := g; cf := file |}];
         trace := trace s1 |} (length (heap s)) p).
    { eexists. split; [by apply list_lookup_middle|done]. }
    split_and!; [| |done|].
    + intros p' n. simpl. destruct (decide (p = p')) as [<-|Hne].
      * rewrite lookup_insert_eq. by intros [= <-].
      * rewrite lookup_insert_ne by done. intros Hv.
        destruct (Hwf _ _ Hv) as (Hp' & o & Ho & Hp). split; [done|].
        exists o. split; [|done]. simpl. by apply lookup_app_l_Some.
    + split; simpl.
      * intros p' n Hv. rewrite lookup_insert_ne; [done|congruence].
      * intros n o Ho. exists o. split; [by apply lookup_app_l_Some|done].
    + intros v [= <-]. split_and!; [| |done].
      * unfold cache_get. simpl. by rewrite lookup_insert_eq.
      * eexists. split; [by apply list_lookup_middle|].
        simpl. by rewrite lookup_insert_eq.
Qed.
(** One step of each loop, with the traced calls run. *)
Lemma real_loop_cons cd recurse raw mf pd (out : list ref) s :
  real_loop cd recurse (raw :: mf) pd out s =
  let fullPath := join cd raw in
  let s1 := with_trace s (EvIsDir (Val fullPath) :: trace s) in
  if truthy (isDir (Val fullPath)) then
    real_loop cd recurse mf (if recurse then pd ++ [fullPath] else pd) out s1
  else
    bind (_outputFor fullPath Undefined)
      (λ v, real_loop cd recurse mf pd (out ++ [v])) s1.
Proof.
  cbn [real_loop]. unfold bind at 1, lift, io_isDir. cbv zeta. by destruct (truthy (isDir _)).
Qed.

Lemma walk_cons fuel cd pd globName recurse (out : list ref) s :
  walk (S fuel) (cd :: pd) globName recurse out s =
  bind (lift (io_readdir cd)) (λ dirContent,
    let matchedFiles :=
      if String.eqb globName "*" then dirContent
      else micromatch_match dirContent globName in
    bind (real_loop cd recurse matchedFiles pd out) (λ '(pd1, out1) s1,
      bind (virtual_loop cd (_virtual s1 cd globName) out1)
        (λ out2, walk fuel pd1 "*" recurse out2) s1)) s.
Proof.
  cbn [walk]. unfold bind. destruct (lift _ s) as [[dc| |] s0]; [|done..].
  by destruct (real_loop _ _ _ _ _ _) as [[[pd1 out1]| |] s1].
Qed.

Lemma real_loop_inv cd recurse mf : ∀ pd (out : list ref) s r s',
  real_loop cd recurse mf pd out s = (r, s') → wf s → Forall (listed s) out →
  wf s' ∧ grows s s' ∧ _gen s' = _gen s ∧
  ∀ pd' out', r = Ok (pd', out') → Forall (listed s') out'.
Proof.
  induction mf as [|raw mf IH]; intros pd out s r s' Hrun Hwf Hout.
  - injection Hrun as <- <-. split_and!; [done|apply grows_refl|done|].
    by intros ?? [= <- <-].
  - rewrite real_loop_cons in Hrun. cbv zeta in Hrun.
    set (s0 := with_trace s _) in Hrun.
    destruct (truthy (isDir _)).
    + by apply (IH _ _ s0) in Hrun.
    + bind_cases Hrun v s1 Hv;
        apply _outputFor_inv in Hv as (Hwf1 & Hg1 & Hgen1 & Hv); [|done..];
        [|by split_and!..].
      destruct (Hv v eq_refl) as (_ & Hcv & _).
      apply IH in Hrun as (Hwf2 & Hg2 & Hgen2 & Hall); [|done|].
      * split_and!; [done| |by rewrite Hgen2, Hgen1|done].
        apply (grows_trans _ s1); done.
      * apply Forall_app. split; [|by apply Forall_singleton].
        by apply (Forall_listed_grows s).
Qed.

Lemma virtual_loop_inv cd (vfs : list (Virtual Gen)) : ∀ (out : list ref) s r s',
  virtual_loop cd vfs out s = (r, s') → wf s → Forall (listed s) out →
  wf s' ∧ grows s s' ∧ _gen s' = _gen s ∧
  ∀ out', r = Ok out' → Forall (listed s') out'.
Proof.
  induction vfs as [|vf vfs IH]; intros out s r s' Hrun Hwf Hout.
  - injection Hrun as <- <-. split_and!; [done|apply grows_refl|done|].
    by intros ? [= <-].
  - cbn [virtual_loop] in Hrun.
    bind_cases Hrun v s1 Hv;
      apply _outputFor_inv in Hv as (Hwf1 & Hg1 & Hgen1 & Hv); [|done..];
      [|by split_and!..].
    destruct (Hv v eq_refl) as (_ & Hcv & _).
    apply IH in Hrun as (Hwf2 & Hg2 & Hgen2 & Hall); [|done|].
    + split_and!; [done| |congruence|done]. by apply (grows_trans _ s1).
    + apply Forall_app. split; [|by apply Forall_singleton].
      by apply (Forall_listed_grows s).
Qed.

Lemma walk_inv fuel : ∀ pd globName recurse (out : list ref) s r s',
  walk fuel pd globName recurse out s = (r, s') → wf s → Forall (listed s) out →
  wf s' ∧ grows s s' ∧ _gen s' = _gen s ∧
  ∀ out', r = Ok out' → Forall (listed s') out'.
Proof.
  induction fuel as [|fuel IH]; intros pd globName recurse out s r s' Hrun Hwf Hout.
  - destruct pd; injection Hrun as <- <-;
      (split_and!; [done|apply grows_refl|done|]); [by intros ? [= <-]|done].
  - destruct pd as [|cd pd].
    { injection Hrun as <- <-. split_and!; [done|apply grows_refl|done|].
      by intros ? [= <-]. }
    rewrite walk_cons in Hrun.
    bind_cases Hrun dc s0 Hdc; apply lift_inv in Hdc as [_ Hs0];
      [|rewrite Hs0; split_and!; [done|apply with_trace_grows|done..]..].
    assert (wf s0 ∧ grows s s0 ∧ _gen s0 = _gen s ∧ Forall (listed s0) out)
      as (Hwf0 & Hg0 & Hgen0 & Hout0)
      by (rewrite Hs0; split_and!; [done|apply with_trace_grows|done..]).
    bind_cases Hrun x s1 Hreal;
      apply real_loop_inv in Hreal as (Hwf1 & Hg1 & Hgen1 & Hout1); try done;
      [|split_and!; [done|by apply (grows_trans _ s0)|congruence|done]..].
    destruct x as [pd1 out1]. specialize (Hout1 _ _ eq_refl).
    bind_cases Hrun out2 s2 Hvirt;
      apply virtual_loop_inv in Hvirt as (Hwf2 & Hg2 & Hgen2 & Hout2); try done;
      [|split_and!; [done|by apply (grows_trans _ s0), (grows_trans _ s1)
                    |congruence|done]..].
    apply IH in Hrun as (Hwf3 & Hg3 & Hgen3 & Hout3); [|done|by apply Hout2].
    split_and!; [done| |congruence|done].
    by apply (grows_trans _ s0), (grows_trans _ s1), (grows_trans _ s2).
Qed.

Lemma _contents_inv fuel rootDir globName recurse s (r : result (list ref)) s' :
  _contents fuel rootDir globName recurse s = (r, s') → wf s →
  wf s' ∧ grows s s' ∧ _gen s' = _gen s ∧
  ∀ out, r = Ok out → Forall (listed s') out.
Proof.
  unfold _contents, bind, lift, io_isDir. cbv zeta.
  set (s0 := with_trace s _). intros Hrun Hwf.
  destruct (truthy (isDir _)); simpl in Hrun.
  - by apply (walk_inv _ _ _ _ _ s0) in Hrun.
  - injection Hrun as <- <-. split_and!; [done|apply with_trace_grows|done|].
    by intros ? [= <-].
Qed.

Lemma contents_inv fuel req recurse s (r : result (list ref)) s' :
  contents fuel req recurse s = (r, s') → wf s →
  wf s' ∧ grows s s' ∧ _gen s' = _gen s ∧
  ∀ out, r = Ok out → Forall (listed s') out.
Proof.
  unfold contents, bind at 1, lift, io_isDir. cbv zeta.
  set (s0 := with_trace s _). intros Hrun Hwf.
  destruct (truthy (isDir _)); [by apply (_contents_inv _ _ _ _ s0) in Hrun|].
  destruct (isGlob _); [|by apply (_contents_inv _ _ _ _ s0) in Hrun].
  injection Hrun as <- <-. split_and!; [done|apply with_trace_grows|done..].
Qed.

Lemma get_inv fuel req s (r : result (option ref)) s' :
  get fuel req s = (r, s') → wf s → wf s' ∧ grows s s'.
Proof.
  unfold get. intros Hrun Hwf. destruct (isGlob req).
  { injection Hrun as <- <-. split; [done|apply grows_refl]. }
  bind_cases Hrun out s1 Hc; apply contents_inv in Hc as (? & ? & _); try done.
  destruct (1 <? length out); [|destruct (length out =? 0)];
    by injection Hrun as <- <-.
Qed.

Lemma read_at_inv (v : nat) s (r : result (jsval string)) s' :
  read_at v s = Some (r, s') → wf s → wf s' ∧ grows s s'.
Proof.
  unfold read_at. intros Hrun Hwf.
  destruct (heap s !! v) as [o|] eqn:Ho; [|done].
  destruct (ContentFile.read _ _) as [[r1 file] tr]. injection Hrun as <- <-.
  assert (Hheap : ∀ n1 o1, heap s !! n1 = Some o1 →
    ∃ o', <[v := {| path := path o; gen := gen o; cf := file |}]> (heap s) !! n1 = Some o'
          ∧ path o' = path o1 ∧ gen o' = gen o1).
  { intros n1 o1 Ho1. destruct (decide (v = n1)) as [<-|Hne].
    - eexists. rewrite list_lookup_insert_eq by by eapply lookup_lt_Some.
      split; [done|]. simpl. by simplify_eq.
    - exists o1. by rewrite list_lookup_insert_ne. }
  split; [|by split].
  intros p n1 Hn1. destruct (Hwf _ _ Hn1) as (Hp & o1 & Ho1 & Hp1). split; [done|].
  destruct (Hheap _ _ Ho1) as (o' & ? & ? & _). exists o'. split; [done|congruence].
Qed.

Lemma register_inv dir name (g : jsval Gen) s :
  wf s → wf (register dir name g s) ∧ grows s (register dir name g s).
Proof. intros Hwf. split; [done|]. split; eauto. Qed.

(** Whatever a client calls, and however the call ends, the cache stays
    sound and keeps what it holds. *)
Lemma after_inv (c : Call) s : wf s → wf (after c s) ∧ grows s (after c s).
Proof.
  intros Hwf. destruct c as [dir name g|fuel req recurse|fuel req|p g|v]; simpl.
  - by apply register_inv.
  - destruct (contents _ _ _ s) as [r s'] eqn:Hrun.
    by apply contents_inv in Hrun as (? & ? & _).
  - destruct (get _ _ s) as [r s'] eqn:Hrun. by apply get_inv in Hrun.
  - destruct (_outputFor _ _ s) as [r s'] eqn:Hrun.
    by apply _outputFor_inv in Hrun as (? & ? & _).
  - destruct (read_at _ s) as [[r s']|] eqn:Hrun; [by apply read_at_inv in Hrun|].
    split; [done|apply grows_refl].
Qed.

Lemma after_all_inv (cs : list Call) : ∀ s,
  wf s → wf (after_all cs s) ∧ grows s (after_all cs s).
Proof.
  induction cs as [|c cs IH]; intros s Hwf; [split; [done|apply grows_refl]|].
  destruct (after_inv c s Hwf) as [Hwf1 Hg1].
  destruct (IH _ Hwf1) as [Hwf2 Hg2]. split; [done|].
  by apply (grows_trans _ (after c s)).
Qed.

Lemma new_wf dir : wf (ContentLoader.new (Config:=Config) (Gen:=Gen) dir).
Proof. intros p v Hv. simpl in Hv. by rewrite lookup_empty in Hv. Qed.

(** What the lookup finds for a path is what [_outputFor] returns for
    it, and the loader is left as it is. *)
Lemma _outputFor_hit p (g : jsval Gen) s v :
  cache_get s p = Some v → _outputFor p g s = (Ok v, s).
Proof. intros Hv. by rewrite _outputFor_run, Hv. Qed.

(** C1, as the code has it, for a call that no other call on the loader
    overlaps. Whatever the request, every entry of the list that [contents]
    returns is the object that the cache holds for its path, or else the
    built-in of a key that the cache object inherits. So two objects of the
    list with one path are one and the same object. The list itself can
    hold that object several times. *)
Theorem contents_one_record_per_path fuel req recurse s out s' :
  wf s →
  contents fuel req recurse s = (Ok out, s') →
  (∀ v, v ∈ out →
     (∃ key, v = Builtin key ∧ inherited key = true) ∨
     (∃ n o, v = Obj n ∧ heap s' !! n = Some o ∧ _cache s' !! path o = Some n)) ∧
  (∀ n1 n2 o1 o2, Obj n1 ∈ out → Obj n2 ∈ out →
     heap s' !! n1 = Some o1 → heap s' !! n2 = Some o2 →
     path o1 = path o2 → n1 = n2).
Proof.
  intros Hwf Hrun.
  apply contents_inv in Hrun as (_ & _ & _ & Hall); [|done].
  specialize (Hall _ eq_refl). rewrite Forall_forall in Hall. split.
  - intros v Hv. specialize (Hall _ Hv). destruct v as [n|key].
    + right. destruct Hall as (o & Ho & Hc). by exists n, o.
    + left. by exists key.
  - intros n1 n2 o1 o2 Hn1 Hn2 Ho1 Ho2 Hp.
    destruct (Hall _ Hn1) as (o1' & Ho1' & Hc1).
    destruct (Hall _ Hn2) as (o2' & Ho2' & Hc2).
    assert (o1' = o1) as -> by congruence. assert (o2' = o2) as -> by congruence.
    rewrite Hp in Hc1. congruence.
Qed.

(** C2, as the code has it, for calls that do not overlap. Once
    [_outputFor] has returned for a path, then after any further calls on
    the loader, each run to its end before the next, and however they end,
    [_outputFor] returns the same reference for that path and leaves the
    loader as it is: no call is made on the storage or on a parser, no
    object is allocated and the cache is not written. When the reference is
    to an object, it is the one made for that path, with the generator it
    was first given, and the cache holds it under the path then and later:
    the entry of the path is written once. *)
Theorem outputFor_twice p (g g' : jsval Gen) (cs : list Call) s v s1 :
  wf s →
  _outputFor p g s = (Ok v, s1) →
  let s2 := after_all cs s1 in
  _outputFor p g' s2 = (Ok v, s2) ∧
  match v with
  | Obj n =>
      _cache s1 !! p = Some n ∧ _cache s2 !! p = Some n ∧
      ∃ o1 o2, heap s1 !! n = Some o1 ∧ heap s2 !! n = Some o2 ∧
               path o1 = p ∧ path o2 = p ∧ gen o2 = gen o1
  | Builtin key => key = p ∧ inherited p = true
  end.
Proof.
  intros Hwf Hrun s2.
  apply _outputFor_inv in Hrun as (Hwf1 & _ & _ & Hv); [|done].
  destruct (Hv _ eq_refl) as (Hget & _ & Hres).
  destruct (after_all_inv cs s1 Hwf1) as [Hwf2 Hg2]. fold s2 in Hwf2, Hg2.
  split; [by eapply _outputFor_hit, cache_get_grows|].
  destruct v as [n|key]; [|done].
  assert (Hc1 : _cache s1 !! p = Some n).
  { unfold cache_get in Hget. destruct (_cache s1 !! p); [by injection Hget as ->|].
    by destruct (inherited p). }
  destruct Hg2 as [Hcache Hheap]. split_and!; [done|by apply Hcache|].
  destruct Hres as (o1 & Ho1 & Hp1).
  destruct (Hheap _ _ Ho1) as (o2 & Ho2 & Hp2 & Hgen2).
  exists o1, o2. split_and!; [done..|congruence|done].
Qed.

(** The same for the entries of a list returned by [contents]: whatever is
    called next, the path of an entry resolves to that entry. *)
Lemma contents_entries_are_kept fuel req recurse (cs : list Call) (g : jsval Gen)
    s out s1 v :
  wf s → contents fuel req recurse s = (Ok out, s1) → v ∈ out →
  ∃ p, resolves s1 v p ∧
       _outputFor p g (after_all cs s1) = (Ok v, after_all cs s1).
Proof.
  intros Hwf Hrun Hv. apply contents_inv in Hrun as (Hwf1 & _ & _ & Hall); [|done].
  specialize (Hall _ eq_refl). rewrite Forall_forall in Hall. specialize (Hall _ Hv).
  destruct (after_all_inv cs s1 Hwf1) as [Hwf2 Hg2].
  destruct v as [n|key].
  - destruct Hall as (o & Ho & Hc). exists (path o). split; [by exists o|].
    eapply _outputFor_hit, cache_get_grows; [done..|].
    unfold cache_get. by rewrite Hc.
  - exists key. split; [done|].
    eapply _outputFor_hit, cache_get_grows; [done..|].
    unfold cache_get. destruct (_cache s1 !! key) as [n|] eqn:Hn.
    + destruct (Hwf1 _ _ Hn) as [? _]. simpl in Hall. congruence.
    + simpl in Hall. by rewrite Hall.
Qed.
End Cache.

(** ** Content records *)

Section Records.
Context `{Storage} `{PathLib} {Config : Type} `{Parsers Config}.
Import ContentFile.

Implicit Types (this : ContentFile.t Config) (tr : Trace).

(** A record whose content is resolved gives it back and calls nothing. *)
Lemma read_resolved this tr (v : jsval string) :
  content this = Plain v → v ≠ Undefined → read this tr = (Ok v, this, tr).
Proof. unfold read. intros -> Hv. by destruct v. Qed.

Lemma read_times_resolved n this tr (v : jsval string) :
  content this = Plain v → v ≠ Undefined →
  read_times n this tr = (replicate n (Ok v), this, tr).
Proof.
  intros Hc Hv. induction n as [|n IH]; [done|].
  cbn [read_times]. by rewrite (read_resolved _ _ v), IH.
Qed.

(** Only the first call of [read()] can reach the storage: a second call
    gives the result of the first and leaves the record and the trace. *)
Lemma read_again this tr :
  let '(r, this', tr') := read this tr in read this' tr' = (r, this', tr').
Proof.
  unfold read. destruct (content this) as [[| |text]|p] eqn:Hc; simpl.
  - by destruct (strictly_false (isDir (path this))).
  - by rewrite Hc.
  - by rewrite Hc.
  - by rewrite Hc.
Qed.

(** What [read()] asks the storage does not depend on the path the
    record was made for: an unread record of a file and an unread record
    of a directory are treated alike. *)
Lemma read_unread_any_path this1 this2 tr :
  content this1 = Plain Undefined → content this2 = Plain Undefined →
  (read this1 tr).1.1 = (read this2 tr).1.1 ∧
  (read this1 tr).2 = (read this2 tr).2 ∧
  content (read this1 tr).1.2 = content (read this2 tr).1.2.
Proof.
  unfold read. intros -> ->. unfold path. by destruct (strictly_false (isDir Undefined)).
Qed.

(** An unread record: whatever the storage answers about [undefined], the
    path the record was made for is not what it is asked about. Either
    the record is given the content [null], or [undefined] is read. *)
Lemma read_unread_cases this tr :
  content this = Plain Undefined →
  (strictly_false (isDir Undefined) = false ∧
   read this tr = (Ok Null, set_content this (Plain Null), EvIsDir Undefined :: tr)) ∨
  (strictly_false (isDir Undefined) = true ∧
   read this tr =
     (await (EvReadFile Undefined) (readFile Undefined),
      set_content this (Promise (readFile Undefined)),
      EvReadFile Undefined :: EvIsDir Undefined :: tr)).
Proof.
  unfold read, path. intros ->.
  destruct (strictly_false (isDir Undefined)); [by right|by left].
Qed.

(** The constructor never leaves the content unread. *)
Lemma new_content fullPath (config : jsval Config) (c : jsval string) :
  content (new fullPath config c) = Plain (default_null c) ∧
  content (new fullPath config c) ≠ Plain Undefined.
Proof. split; [done|]. by destruct c. Qed.

(** A source whose extension is not in [alwaysReadSource] is not read,
    and its record is made with the content [null]. *)
Lemma _buildFromSource_other fullPath tr :
  extname fullPath ∉ alwaysReadSource →
  ∃ file : ContentFile.t Config,
    _buildFromSource fullPath tr = (Ok file, tr) ∧ content file = Plain Null.
Proof.
  unfold _buildFromSource. intros Hext. rewrite bool_decide_eq_false_2 by done.
  by eexists.
Qed.

Lemma parses_cons_read p tr : parses (EvReadFile p :: tr) = parses tr.
Proof. done. Qed.

(** C9. A Markdown source is read and given to [yamlPrefix] once: the
    record holds the configuration and the rest that it returned. A YAML
    source is read and parsed once: the record holds the parsed document
    and the text as it was read. In both cases any number of [read()]
    calls return that content, run no parser and read no file. *)
Theorem eager_sources fullPath text tr :
  readFile (Val fullPath) = Some text →
  (extname fullPath = ".md" →
   ∀ out, yamlPrefix text = Some out → out_config out ≠ Undefined →
     ∃ file tr', _buildFromSource fullPath tr = (Ok file, tr') ∧
       config file = out_config out ∧
       content file = Plain (Val (out_rest out)) ∧
       parses tr' = S (parses tr) ∧ reads tr' = S (reads tr) ∧
       ∀ n, read_times n file tr' = (replicate n (Ok (Val (out_rest out))), file, tr')) ∧
  (extname fullPath = ".yaml" →
   ∀ doc, YAML_parse text = Some doc → doc ≠ Undefined →
     ∃ file tr', _buildFromSource fullPath tr = (Ok file, tr') ∧
       config file = doc ∧
       content file = Plain (Val text) ∧
       parses tr' = S (parses tr) ∧ reads tr' = S (reads tr) ∧
       ∀ n, read_times n file tr' = (replicate n (Ok (Val text)), file, tr')).
Proof.
  intros Hread. split.
  - intros Hext out Hout Hcfg. unfold _buildFromSource. rewrite Hext.
    rewrite bool_decide_eq_true_2 by (unfold alwaysReadSource; set_solver).
    unfold bind, io_readFile, run_yamlPrefix, call. rewrite Hread, Hout. simpl.
    eexists _, _. split; [done|]. split_and!; [by destruct (out_config out)|done..|].
    intros n. by apply read_times_resolved.
  - intros Hext doc Hdoc Hcfg. unfold _buildFromSource. rewrite Hext.
    rewrite bool_decide_eq_true_2 by (unfold alwaysReadSource; set_solver).
    unfold bind, io_readFile, run_YAML_parse, call. rewrite Hread, Hdoc. simpl.
    eexists _, _. split; [done|]. split_and!; [by destruct doc|done..|].
    intros n. by apply read_times_resolved.
Qed.
End Records.

(** ** Virtual matches *)

Section Registry.
Context `{GlobLib} {Gen : Type}.
Import ContentLoader.

Implicit Types (r : Registration Gen).

(** An explicit request for a name that satisfies the name pattern of a
    registration, in a directory that satisfies its directory pattern, is
    offered under the requested name. *)
Lemma virtual_of_direct candidateDir candidateName r :
  isMatch candidateDir (reg_dir r) = true →
  isMatch candidateName (reg_name r) = true →
  virtual_of candidateDir candidateName r =
    Some {| v_name := candidateName; v_gen := reg_gen r |}.
Proof. unfold virtual_of. by intros -> ->. Qed.

(** A registration under a concrete name is offered under that name by a
    listing, when the star itself does not satisfy the name. *)
Lemma virtual_of_concrete candidateDir r :
  isMatch candidateDir (reg_dir r) = true →
  isGlob (reg_name r) = false →
  isMatch "*" (reg_name r) = false →
  virtual_of candidateDir "*" r = Some {| v_name := reg_name r; v_gen := reg_gen r |}.
Proof. unfold virtual_of. by intros -> -> ->. Qed.

(** A registration under a glob is offered only through the direct
    test: when the candidate does not satisfy the glob, nothing is. *)
Lemma virtual_of_glob candidateDir candidateName r :
  isGlob (reg_name r) = true →
  isMatch candidateName (reg_name r) = false →
  virtual_of candidateDir candidateName r = None.
Proof. unfold virtual_of. intros -> ->. by destruct (isMatch _ _). Qed.

(** The two ways in which a registration is offered. The first one is
    tried on every candidate, whatever [isGlob] says of it. *)
Lemma virtual_of_Some candidateDir candidateName r vf :
  virtual_of candidateDir candidateName r = Some vf →
  isMatch candidateDir (reg_dir r) = true ∧ v_gen vf = reg_gen r ∧
  ((isMatch candidateName (reg_name r) = true ∧ v_name vf = candidateName) ∨
   (isMatch candidateName (reg_name r) = false ∧ isGlob (reg_name r) = false ∧
    v_name vf = reg_name r ∧
    (candidateName = "*" ∨ isMatch (reg_name r) candidateName = true))).
Proof.
  unfold virtual_of.
  destruct (isMatch candidateDir _); simpl; [|done].
  destruct (isMatch candidateName _).
  { intros [= <-]. split_and!; [done..|]. by left. }
  destruct (isGlob _); simpl; [done|].
  destruct (String.eqb_spec candidateName "*") as [->|Hne]; simpl.
  { intros [= <-]. split_and!; [done..|]. right. split_and!; [done..|]. by left. }
  destruct (isMatch (reg_name r) candidateName); [|done].
  intros [= <-]. split_and!; [done..|]. right. split_and!; [done..|]. by right.
Qed.

Lemma _virtual_elem {Config} (this : ContentLoader.t Config Gen) candidateDir candidateName vf :
  vf ∈ _virtual this candidateDir candidateName ↔
  ∃ r, r ∈ _gen this ∧ virtual_of candidateDir candidateName r = Some vf.
Proof. unfold _virtual. apply list_elem_of_omap. Qed.
End Registry.

(** ** Requests *)

Section Requests.
Context `{Storage} `{GlobLib} `{PathLib} {Config Gen : Type} `{Parsers Config}.
Import ContentLoader.

Implicit Types (s : ContentLoader.t Config Gen) (v : ref) (p : string).

Lemma total_ret {S A} (a : A) : total (ret (S:=S) a).
Proof. by intros s. Qed.

Lemma total_bind {S A B} (m : M S A) (k : A → M S B) :
  total m → (∀ a, total (k a)) → total (bind m k).
Proof.
  intros Hm Hk s. unfold bind. specialize (Hm s).
  destruct (m s) as [[a|e|] s1]; [apply Hk|done..].
Qed.

Lemma total_call {A} (e : Event) (r : option A) err : total (call e r err).
Proof. intros tr. unfold call. by destruct r. Qed.

Lemma total_lift {A} (m : M Trace A) : total m → total (lift (Config:=Config) (Gen:=Gen) m).
Proof. intros Hm s. specialize (Hm (trace s)). unfold lift. by destruct (m _). Qed.

Lemma total__buildFromSource fullPath :
  total (ContentFile._buildFromSource (Config:=Config) fullPath).
Proof.
  unfold ContentFile._buildFromSource. case_bool_decide; [|apply total_ret].
  apply total_bind; [apply total_call|]. intros text.
  destruct (String.eqb _ ".md"); [|destruct (String.eqb _ ".yaml")];
    try apply total_ret;
    (apply total_bind; [apply total_call|intros; apply total_ret]).
Qed.

Lemma total__outputFor p (g : jsval Gen) : total (_outputFor (Config:=Config) p g).
Proof.
  intros s. rewrite _outputFor_run. destruct (cache_get s p); [done|].
  apply total_bind; [|done].
  destruct g; [apply total_lift, total__buildFromSource|apply total_ret..].
Qed.

Lemma total_real_loop cd recurse mf : ∀ pd (out : list ref),
  total (real_loop (Config:=Config) (Gen:=Gen) cd recurse mf pd out).
Proof.
  induction mf as [|raw mf IH]; intros pd out; [apply total_ret|].
  intros s. rewrite real_loop_cons. cbv zeta. destruct (truthy (isDir _)); [apply IH|].
  apply total_bind; [apply total__outputFor|]. intros v. apply IH.
Qed.

Lemma total_virtual_loop cd (vfs : list (Virtual Gen)) : ∀ (out : list ref),
  total (virtual_loop (Config:=Config) cd vfs out).
Proof.
  induction vfs as [|vf vfs IH]; intros out; [apply total_ret|].
  cbn [virtual_loop]. apply total_bind; [apply total__outputFor|]. intros v. apply IH.
Qed.

(** Without [recurse] the first loop leaves the queue as it is. *)
Lemma real_loop_flat cd mf : ∀ pd (out : list ref) s pd' out' s',
  real_loop cd false mf pd out s = (Ok (pd', out'), s') → pd' = pd.
Proof.
  induction mf as [|raw mf IH]; intros pd out s pd' out' s' Hrun.
  - unfold real_loop, ret in Hrun. by simplify_eq.
  - rewrite real_loop_cons in Hrun. cbv zeta in Hrun.
    destruct (truthy (isDir _)); [by apply IH in Hrun|].
    apply bind_inv in Hrun as [(v & s1 & Hv & Hrun) | [(? & _ & ?) | (_ & ?)]];
      [by apply IH in Hrun|done..].
Qed.

(** So the walk of one directory needs one unit of fuel. *)
Lemma total_walk_flat fuel rootDir globName (out : list ref) :
  total (walk (Config:=Config) (Gen:=Gen) (S fuel) [rootDir] globName false out).
Proof.
  intros s. rewrite walk_cons.
  apply total_bind; [apply total_lift, total_call|]. intros dc. cbv zeta.
  intros s0. unfold bind at 1.
  pose proof (total_real_loop rootDir false
    (if String.eqb globName "*" then dc else micromatch_match dc globName) [] out s0)
    as Hreal.
  destruct (real_loop _ _ _ _ _ _) as [[[pd1 out1]| |] s1] eqn:Hrun; [|done..].
  apply real_loop_flat in Hrun as ->.
  apply total_bind; [apply total_virtual_loop|]. intros out2. by destruct fuel.
Qed.

Lemma total_contents_flat fuel req :
  1 ≤ fuel → total (contents (Config:=Config) (Gen:=Gen) fuel req false).
Proof.
  intros Hfuel. destruct fuel as [|fuel]; [lia|].
  assert (Hc : ∀ rootDir globName,
    total (_contents (Config:=Config) (Gen:=Gen) (S fuel) rootDir globName false)).
  { intros rootDir globName s. unfold _contents, bind, lift, io_isDir.
    destruct (truthy (isDir _)); simpl; [apply total_walk_flat|done]. }
  intros s. unfold contents, bind at 1, lift, io_isDir. cbv zeta.
  destruct (truthy (isDir _)); [apply Hc|]. destruct (isGlob _); [done|apply Hc].
Qed.

Lemma get_after_contents fuel req s :
  isGlob req = false →
  get fuel req s =
    match contents fuel req false s with
    | (Ok out, s') => (sole out, s')
    | (Throw e, s') => (Throw e, s')
    | (OutOfFuel, s') => (OutOfFuel, s')
    end.
Proof.
  unfold get, bind. intros ->.
  destruct (contents _ _ _ s) as [[out|e|] s']; [|done..].
  by destruct out as [|v [|v' out]].
Qed.

(** The paths of the entries that the two loops add to [out]: the names
    that are not directories, then the virtual names, each joined to the
    directory. *)
Lemma real_loop_paths cd recurse mf : ∀ pd (out : list ref) s pd' out' s',
  real_loop cd recurse mf pd out s = (Ok (pd', out'), s') →
  wf s → Forall (listed s) out →
  ∃ new, out' = out ++ new ∧
    Forall2 (resolves s') new
      (join cd <$> filter (λ raw, truthy (isDir (Val (join cd raw))) = false) mf).
Proof.
  induction mf as [|raw mf IH]; intros pd out s pd' out' s' Hrun Hwf Hout.
  - unfold real_loop, ret in Hrun. exists []. rewrite app_nil_r.
    split; [by simplify_eq|constructor].
  - rewrite real_loop_cons in Hrun. cbv zeta in Hrun.
    destruct (truthy (isDir (Val (join cd raw)))) eqn:Hd.
    + rewrite filter_cons_False by (by rewrite Hd). by eapply IH.
    + rewrite filter_cons_True by done.
      apply bind_inv in Hrun as [(v & s1 & Hv & Hrun) | [(? & _ & ?) | (_ & ?)]];
        [|done..].
      apply _outputFor_inv in Hv as (Hwf1 & Hg1 & _ & Hv); [|done].
      destruct (Hv _ eq_refl) as (Hcv & Hcached & Hres).
      assert (Forall (listed s1) (out ++ [v])) as Hout1.
      { apply Forall_app. split; [|by apply Forall_singleton].
        eapply Forall_listed_grows; [|done].
        eapply grows_trans; [apply with_trace_grows|done]. }
      destruct (IH _ _ _ _ _ _ Hrun Hwf1 Hout1) as (new & -> & Hnew).
      apply real_loop_inv in Hrun as (_ & Hg2 & _); [|done..].
      exists (v :: new). split; [by rewrite <- app_assoc|].
      rewrite fmap_cons. constructor; [|done].
      by eapply resolves_grows.
Qed.

Lemma virtual_loop_paths cd (vfs : list (Virtual Gen)) : ∀ (out : list ref) s out' s',
  virtual_loop cd vfs out s = (Ok out', s') →
  wf s → Forall (listed s) out →
  ∃ new, out' = out ++ new ∧
    Forall2 (resolves s') new ((λ vf, join cd (v_name vf)) <$> vfs).
Proof.
  induction vfs as [|vf vfs IH]; intros out s out' s' Hrun Hwf Hout.
  - unfold virtual_loop, ret in Hrun. exists []. rewrite app_nil_r.
    split; [by simplify_eq|constructor].
  - cbn [virtual_loop] in Hrun.
    apply bind_inv in Hrun as [(v & s1 & Hv & Hrun) | [(? & _ & ?) | (_ & ?)]];
      [|done..].
    apply _outputFor_inv in Hv as (Hwf1 & Hg1 & _ & Hv); [|done].
    destruct (Hv _ eq_refl) as (Hcv & Hcached & Hres).
    assert (Forall (listed s1) (out ++ [v])) as Hout1.
    { apply Forall_app. split; [|by apply Forall_singleton].
      by eapply Forall_listed_grows. }
    destruct (IH _ _ _ _ Hrun Hwf1 Hout1) as (new & -> & Hnew).
    apply virtual_loop_inv in Hrun as (_ & Hg2 & _); [|done..].
    exists (v :: new). split; [by rewrite <- app_assoc|].
    rewrite fmap_cons. constructor; [|done].
    by eapply resolves_grows.
Qed.


(** C7. [get] on a glob throws at once and leaves the loader, and so the
    trace of the calls on the storage, as it was. On any other request it
    runs [contents] without recursion and returns [null] for an empty
    list, the entry of a list of one, and throws for a longer list. One
    unit of fuel is enough for it to end. *)
Theorem get_outcomes fuel req s :
  (isGlob req = true → get fuel req s = (Throw GlobRead, s)) ∧
  (isGlob req = false →
   ∀ out s', contents fuel req false s = (Ok out, s') →
     (length out = 0 → get fuel req s = (Ok None, s')) ∧
     (2 ≤ length out → get fuel req s = (Throw MatchedMany, s')) ∧
     (∀ v, out = [v] → get fuel req s = (Ok (Some v), s'))) ∧
  (1 ≤ fuel → (get fuel req s).1 ≠ OutOfFuel).
Proof.
  split_and!.
  - unfold get. by intros ->.
  - intros Hglob out s' Hrun. rewrite get_after_contents, Hrun by done.
    split_and!.
    + by destruct out.
    + destruct out as [|v1 [|v2 out]]; simpl; [lia..|done].
    + by intros v ->.
  - intros Hfuel. destruct (isGlob req) eqn:Hglob.
    { unfold get. by rewrite Hglob. }
    rewrite get_after_contents by done.
    pose proof (total_contents_flat fuel req Hfuel s) as Htotal.
    destruct (contents _ _ _ s) as [[out|e|] s']; [|done..].
    by destruct out as [|v [|v' out]].
Qed.

(** C8. A request that is not a directory and whose directory part is a
    glob is refused. A request whose root directory, the directory part of
    a request that is not a directory, does not exist gives the empty
    list; the storage is only asked whether the two paths are directories. *)
Theorem contents_refusal_and_missing_root fuel req recurse s :
  truthy (isDir (Val (normalize req))) = false →
  let asked := with_trace s (EvIsDir (Val (normalize req)) :: trace s) in
  (isGlob (dirname (normalize req)) = true →
   contents fuel req recurse s = (Throw GlobDirectory, asked)) ∧
  (isGlob (dirname (normalize req)) = false →
   truthy (isDir (Val (dirname (normalize req)))) = false →
   contents fuel req recurse s =
     (Ok [], with_trace s (EvIsDir (Val (dirname (normalize req))) :: trace asked))).
Proof.
  intros Hreq asked. unfold contents, bind, lift, io_isDir. cbv zeta. rewrite Hreq.
  split.
  - by intros ->.
  - intros -> Hdir. unfold _contents, bind, lift, io_isDir. simpl. by rewrite Hdir.
Qed.

End Requests.

(** ** The code on concrete inputs *)

Section Examples.
Import ContentLoader Demo.

Abbreviation DemoLoader := (ContentLoader.t string string).

Lemma loader_wf : wf loader.
Proof. intros p n Hn. simpl in Hn. by rewrite lookup_empty in Hn. Qed.

(** C1 fails as stated. In [pages/foo] the file [index.html] is on the
    storage and is also the name of a registration for [pages/*]: the
    listing holds its path twice. *)
Lemma contents_repeats_a_path :
  let '(r, s') := contents 1 "pages/foo" false loader in
  r = Ok [Obj 0; Obj 1; Obj 2; Obj 3; Obj 1] ∧
  paths_of s' [Obj 0; Obj 1; Obj 2; Obj 3; Obj 1] =
    ["pages/foo/data.yaml"; "pages/foo/index.html"; "pages/foo/notes.txt";
     "pages/foo/post.md"; "pages/foo/index.html"] ∧
  ¬ NoDup (paths_of s' [Obj 0; Obj 1; Obj 2; Obj 3; Obj 1]).
Proof.
  vm_compute. split_and!; [done..|].
  intros Hnd. apply NoDup_cons in Hnd as [_ Hnd]. apply NoDup_cons in Hnd as [Hin _].
  apply Hin. set_solver.
Qed.

(** The records of that listing. *)
Lemma contents_one_record_per_path_witness :
  wf loader ∧
  contents 1 "pages/foo" false loader =
    (Ok [Obj 0; Obj 1; Obj 2; Obj 3; Obj 1], (contents 1 "pages/foo" false loader).2) ∧
  (∀ v, v ∈ [Obj 0; Obj 1; Obj 2; Obj 3; Obj 1] →
     (∃ key, v = Builtin key ∧ inherited key = true) ∨
     (∃ n o, v = Obj n ∧
        heap (contents 1 "pages/foo" false loader).2 !! n = Some o ∧
        _cache (contents 1 "pages/foo" false loader).2 !! path o = Some n)) ∧
  (∀ n1 n2 o1 o2,
     Obj n1 ∈ [Obj 0; Obj 1; Obj 2; Obj 3; Obj 1] →
     Obj n2 ∈ [Obj 0; Obj 1; Obj 2; Obj 3; Obj 1] →
     heap (contents 1 "pages/foo" false loader).2 !! n1 = Some o1 →
     heap (contents 1 "pages/foo" false loader).2 !! n2 = Some o2 →
     path o1 = path o2 → n1 = n2).
Proof.
  assert (Hrun : contents 1 "pages/foo" false loader =
            (Ok [Obj 0; Obj 1; Obj 2; Obj 3; Obj 1],
             (contents 1 "pages/foo" false loader).2))
    by (vm_compute; reflexivity).
  split; [apply loader_wf|]. split; [exact Hrun|].
  exact (contents_one_record_per_path 1 "pages/foo" false loader _ _ loader_wf Hrun).
Defined.

(** C2 fails as stated. Two resolutions of [post.md] that overlap: the
    second starts while the first waits for its record. Both miss the
    cache, both read and parse the file, and each stores an object of its
    own: the two results differ, and the entry of the path is written
    twice. A resolution after them returns the second object, not the one
    that the first resolution returned. *)
Lemma overlapping_resolutions_read_twice :
  let p := "pages/foo/post.md" in
  let '(first, s1) := _outputFor_begin p Undefined loader in
  let '(second, s2) := _outputFor_begin p Undefined s1 in
  ∃ o1 o2, first = Ok (Awaiting o1) ∧ second = Ok (Awaiting o2) ∧
    let '(r1, s3) := _outputFor_end p (Awaiting o1) s2 in
    let '(r2, s4) := _outputFor_end p (Awaiting o2) s3 in
    r1 = Ok (Obj 0) ∧ r2 = Ok (Obj 1) ∧ r1 ≠ r2 ∧
    reads (trace s4) = 2 ∧ parses (trace s4) = 2 ∧
    _cache s3 !! p = Some 0 ∧ _cache s4 !! p = Some 1 ∧
    (_outputFor p Undefined s4).1 = Ok (Obj 1).
Proof. vm_compute. eexists _, _. by split_and!. Qed.

(** [notes.txt] is resolved, then the loader is used in several ways,
    and the path is resolved again, this time with a generator. *)
Lemma outputFor_twice_witness :
  let s1 := (_outputFor "pages/foo/notes.txt" Undefined loader).2 in
  let s2 := after_all [CallRead 0; CallContents 3 "pages" true;
                       CallRegister "pages/*" "notes.txt" (Val "notes");
                       CallGet 1 "pages/foo/index.html"] s1 in
  wf loader ∧
  _outputFor "pages/foo/notes.txt" Undefined loader = (Ok (Obj 0), s1) ∧
  _outputFor "pages/foo/notes.txt" (Val "other") s2 = (Ok (Obj 0), s2) ∧
  _cache s1 !! "pages/foo/notes.txt" = Some 0 ∧
  _cache s2 !! "pages/foo/notes.txt" = Some 0 ∧
  ∃ o1 o2, heap s1 !! 0 = Some o1 ∧ heap s2 !! 0 = Some o2 ∧
           path o1 = "pages/foo/notes.txt" ∧ path o2 = "pages/foo/notes.txt" ∧
           gen o2 = gen o1.
Proof.
  intros s1 s2.
  assert (Hrun : _outputFor "pages/foo/notes.txt" Undefined loader = (Ok (Obj 0), s1))
    by (vm_compute; reflexivity).
  split; [apply loader_wf|]. split; [exact Hrun|].
  exact (outputFor_twice "pages/foo/notes.txt" Undefined (Val "other") _ loader (Obj 0) s1
           loader_wf Hrun).
Defined.

(** C3: the code does not do this. [notes.txt] holds the text [hello] and
    its extension is not one of those read at once; the record that
    [_buildFromSource] makes for it has the content [null], not the unread
    marker, and no number of [read()] calls fetches the text. *)
Theorem lazy_source_is_built_resolved :
  readFile (Val "pages/foo/notes.txt") = Some "hello" ∧
  (extname "pages/foo/notes.txt" ∉ ContentFile.alwaysReadSource) ∧
  ∃ file : ContentFile.t string,
    ContentFile._buildFromSource "pages/foo/notes.txt" [] = (Ok file, []) ∧
    ContentFile.content file = ContentFile.Plain Null ∧
    ContentFile.content file ≠ ContentFile.Plain Undefined ∧
    ∀ n, ContentFile.read_times n file [] = (replicate n (Ok Null), file, []).
Proof.
  split; [done|]. split; [by apply (bool_decide_unpack _)|].
  eexists. split; [vm_compute; reflexivity|]. split_and!; [done..|].
  intros n. by apply read_times_resolved.
Qed.

(** C4: the code does not do this. On the record built for [notes.txt]
    [read()] returns [null] and reads nothing. On a record in the unread
    state it asks the storage about [this.path], which is [undefined], and
    not about the path of the record: here the record of the file
    [notes.txt] is treated as the record of the directory [pages/foo/img]
    is, it gets the content [null] and its file is never read. *)
Theorem read_misses_the_record_path :
  let file : ContentFile.t string := ContentFile.new "pages/foo/notes.txt" Null Undefined in
  let unread_file := ContentFile.set_content file (ContentFile.Plain Undefined) in
  let unread_dir : ContentFile.t string :=
    ContentFile.set_content (ContentFile.new "pages/foo/img" Null Undefined)
      (ContentFile.Plain Undefined) in
  readFile (Val "pages/foo/notes.txt") = Some "hello" ∧
  isDir (Val "pages/foo/notes.txt") = Val false ∧
  isDir (Val "pages/foo/img") = Val true ∧
  ContentFile._buildFromSource "pages/foo/notes.txt" [] = (Ok file, []) ∧
  ContentFile.read file [] = (Ok Null, file, []) ∧
  ContentFile.read unread_file [] = (Ok Null, file, [EvIsDir Undefined]) ∧
  ContentFile.read unread_dir [] =
    (Ok Null, ContentFile.new "pages/foo/img" Null Undefined, [EvIsDir Undefined]) ∧
  ∀ n, (ContentFile.read_times n unread_file []).1.1 = replicate n (Ok Null) ∧
       reads (ContentFile.read_times n unread_file []).2 = 0.
Proof.
  intros file unread_file unread_dir. split_and!; [by vm_compute..|].
  intros n. destruct n as [|n]; [done|]. cbn [ContentFile.read_times].
  replace (ContentFile.read unread_file []) with
    (Ok (Null : jsval string), file, [EvIsDir Undefined]) by (by vm_compute).
  by rewrite (read_times_resolved n file _ Null).
Qed.

(** C5: the code does not do this. A registration under the glob [*] is
    offered by the listing of a directory, as a file named [*]. *)
Theorem listing_offers_a_glob_registration :
  let starred : DemoLoader :=
    register "pages/*" "*" (Val "all") (ContentLoader.new "pages") in
  isGlob "*" = true ∧
  _virtual starred "pages/foo" "*" = [{| v_name := "*"; v_gen := Val "all" |}].
Proof. by vm_compute. Qed.

(** What does hold of the registry, on the two registrations of [loader]:
    the concrete name is offered by the listing of [pages/foo], the glob
    is not, and the glob is offered to an explicit request that satisfies
    it. *)
Example registry_on_a_listing_and_a_request :
  _virtual loader "pages/foo" "*" = [{| v_name := "index.html"; v_gen := Val "index" |}] ∧
  _virtual loader "pages/foo" "draft-1.md" =
    [{| v_name := "draft-1.md"; v_gen := Val "drafts" |}] ∧
  _virtual loader "elsewhere" "*" = [].
Proof. by vm_compute. Qed.

(** C6: the code does not do this. The candidate [*.md] is a glob, the
    registered name [*.md] is a glob, so only the direct test can offer
    it; and it does, under the name of the candidate. *)
Theorem direct_test_takes_a_glob_candidate :
  let r : Registration string :=
    {| reg_dir := "pages/*"; reg_name := "*.md"; reg_gen := Val "md" |} in
  isGlob "*.md" = true ∧
  isMatch "*.md" (reg_name r) = true ∧
  virtual_of "pages/foo" "*.md" r = Some {| v_name := "*.md"; v_gen := Val "md" |}.
Proof. by vm_compute. Qed.

(** [get] on a glob, on a request with one match, on a request with
    none and on a request with two. *)
Lemma get_outcomes_witness :
  isGlob "pages/foo/*.md" = true ∧
  get 1 "pages/foo/*.md" loader = (Throw GlobRead, loader) ∧
  isGlob "pages/foo/post.md" = false ∧
  contents 1 "pages/foo/post.md" false loader =
    (Ok [Obj 0], (contents 1 "pages/foo/post.md" false loader).2) ∧
  get 1 "pages/foo/post.md" loader =
    (Ok (Some (Obj 0)), (contents 1 "pages/foo/post.md" false loader).2) ∧
  get 1 "pages/foo/none.md" loader =
    (Ok None, (contents 1 "pages/foo/none.md" false loader).2) ∧
  get 1 "pages/foo/index.html" loader =
    (Throw MatchedMany, (contents 1 "pages/foo/index.html" false loader).2) ∧
  (get 1 "pages/foo/post.md" loader).1 ≠ OutOfFuel.
Proof.
  assert (Hone : contents 1 "pages/foo/post.md" false loader =
            (Ok [Obj 0], (contents 1 "pages/foo/post.md" false loader).2))
    by (vm_compute; reflexivity).
  assert (Hnone : contents 1 "pages/foo/none.md" false loader =
            (Ok [], (contents 1 "pages/foo/none.md" false loader).2))
    by (vm_compute; reflexivity).
  assert (Htwo : contents 1 "pages/foo/index.html" false loader =
            (Ok [Obj 0; Obj 0], (contents 1 "pages/foo/index.html" false loader).2))
    by (vm_compute; reflexivity).
  split_and!.
  - reflexivity.
  - exact (proj1 (get_outcomes 1 "pages/foo/*.md" loader) eq_refl).
  - reflexivity.
  - exact Hone.
  - exact (proj2 (proj2 (proj1 (proj2 (get_outcomes 1 "pages/foo/post.md" loader))
             eq_refl _ _ Hone)) (Obj 0) eq_refl).
  - exact (proj1 (proj1 (proj2 (get_outcomes 1 "pages/foo/none.md" loader))
             eq_refl _ _ Hnone) eq_refl).
  - refine (proj1 (proj2 (proj1 (proj2 (get_outcomes 1 "pages/foo/index.html" loader))
             eq_refl _ _ Htwo)) _). simpl. lia.
  - exact (proj2 (proj2 (get_outcomes 1 "pages/foo/post.md" loader)) (le_n 1)).
Defined.

(** A glob in the directory part, and a directory that does not exist. *)
Lemma contents_refusal_and_missing_root_witness :
  truthy (isDir (Val (normalize "pa*/x.md"))) = false ∧
  isGlob (dirname (normalize "pa*/x.md")) = true ∧
  (contents 1 "pa*/x.md" false loader).1 = Throw GlobDirectory ∧
  truthy (isDir (Val (normalize "nowhere/x.md"))) = false ∧
  isGlob (dirname (normalize "nowhere/x.md")) = false ∧
  truthy (isDir (Val (dirname (normalize "nowhere/x.md")))) = false ∧
  (contents 1 "nowhere/x.md" true loader).1 = Ok [].
Proof.
  split; [reflexivity|]. split; [reflexivity|]. split.
  { exact (f_equal fst (proj1 (contents_refusal_and_missing_root 1 "pa*/x.md" false
                                 loader eq_refl) eq_refl)). }
  split; [reflexivity|]. split; [reflexivity|]. split; [reflexivity|].
  exact (f_equal fst (proj2 (contents_refusal_and_missing_root 1 "nowhere/x.md" true
                               loader eq_refl) eq_refl eq_refl)).
Defined.

(** [post.md] with its front matter, and [data.yaml]. *)
Lemma eager_sources_witness :
  readFile (Val "pages/foo/post.md") = Some (fence +:+ "title: T" +:+ nl +:+ fence +:+ "body") ∧
  (∃ file tr',
     ContentFile._buildFromSource "pages/foo/post.md" [] = (Ok file, tr') ∧
     ContentFile.config file = Val ("title: T" +:+ nl) ∧
     ContentFile.content file = ContentFile.Plain (Val "body") ∧
     parses tr' = 1 ∧ reads tr' = 1 ∧
     ∀ n, ContentFile.read_times n file tr' = (replicate n (Ok (Val "body")), file, tr')) ∧
  readFile (Val "pages/foo/data.yaml") = Some "title: T" ∧
  (∃ file tr',
     ContentFile._buildFromSource "pages/foo/data.yaml" [] = (Ok file, tr') ∧
     ContentFile.config file = Val "title: T" ∧
     ContentFile.content file = ContentFile.Plain (Val "title: T") ∧
     parses tr' = 1 ∧ reads tr' = 1 ∧
     ∀ n, ContentFile.read_times n file tr' = (replicate n (Ok (Val "title: T")), file, tr')).
Proof.
  split; [reflexivity|]. split.
  - exact (proj1 (eager_sources "pages/foo/post.md" _ [] eq_refl) eq_refl
             {| out_config := Val ("title: T" +:+ nl); out_rest := "body" |}
             eq_refl ltac:(discriminate)).
  - split; [reflexivity|].
    exact (proj2 (eager_sources "pages/foo/data.yaml" _ [] eq_refl) eq_refl
             (Val "title: T") eq_refl ltac:(discriminate)).
Defined.



(** With [recurse] the walk goes down into [pages/foo] and [pages/foo/img]
    and lists every file, and the virtual [index.html] again; without it
    the listing of [pages] is empty. *)
Example recursive_listing :
  (let '(r, s') := contents 3 "pages" true loader in
   r = Ok [Obj 0; Obj 1; Obj 2; Obj 3; Obj 1; Obj 4] ∧
   paths_of s' [Obj 0; Obj 1; Obj 2; Obj 3; Obj 4] =
     ["pages/foo/data.yaml"; "pages/foo/index.html"; "pages/foo/notes.txt";
      "pages/foo/post.md"; "pages/foo/img/logo.png"]) ∧
  (contents 3 "pages" false loader).1 = Ok [] ∧
  (contents 2 "pages" true loader).1 = OutOfFuel.
Proof. by vm_compute. Qed.
(** In the current directory two files have the names of inherited keys.
    The lookup of the cache finds the built-ins under these names: the
    listing holds them, and no file is read and no object made. *)
Example listing_of_inherited_keys :
  let '(r, s') := contents 1 "." false loader in
  r = Ok [Builtin "constructor"; Builtin "valueOf"] ∧
  heap s' = [] ∧ _cache s' = ∅ ∧ reads (trace s') = 0 ∧
  (get 1 "constructor" loader).1 = Ok (Some (Builtin "constructor")).
Proof. by vm_compute. Qed.
End Examples.

(** * Further properties of the two classes *)

(** ** What every call keeps *)

Section Preserved.
Context `{Storage} `{GlobLib} `{PathLib} {Config Gen : Type} `{Parsers Config}.
Import ContentLoader.

Implicit Types (s : ContentLoader.t Config Gen) (v : ref) (p : string).

(** A property of loaders that the storage tests and [_outputFor] keep
    is kept by the two loops. *)
Variable I : ContentLoader.t Config Gen → Prop.
Hypothesis I_isDir : ∀ s q, I s → I (with_trace s (EvIsDir q :: trace s)).
Hypothesis I_outputFor : ∀ p (g : jsval Gen) s, I s → I (_outputFor p g s).2.

Lemma real_loop_keeps cd recurse mf : ∀ pd (out : list ref) s,
  I s → I (real_loop cd recurse mf pd out s).2.
Proof using I_isDir I_outputFor.
  induction mf as [|raw mf IH]; intros pd out s HI; [done|].
  rewrite real_loop_cons. cbv zeta.
  destruct (truthy (isDir _)); [by apply IH, I_isDir|].
  unfold bind. set (s0 := with_trace s _).
  pose proof (I_outputFor (join cd raw) Undefined s0 (I_isDir _ _ HI)) as HI1.
  destruct (_outputFor _ _ s0) as [[v|e|] s1]; [by apply IH|done..].
Qed.

Lemma virtual_loop_keeps cd (vfs : list (Virtual Gen)) : ∀ (out : list ref) s,
  I s → I (virtual_loop cd vfs out s).2.
Proof using I_outputFor.
  induction vfs as [|vf vfs IH]; intros out s HI; [done|].
  cbn [virtual_loop]. unfold bind.
  pose proof (I_outputFor (join cd (v_name vf)) (v_gen vf) s HI) as HI1.
  destruct (_outputFor _ _ s) as [[v|e|] s1]; [by apply IH|done..].
Qed.

(** If the listings keep it too, so do the walk and the public calls. *)
Hypothesis I_readdir : ∀ s q, I s → I (with_trace s (EvReaddir q :: trace s)).

Lemma walk_keeps fuel : ∀ pd globName recurse (out : list ref) s,
  I s → I (walk fuel pd globName recurse out s).2.
Proof using I_isDir I_outputFor I_readdir.
  induction fuel as [|fuel IH]; intros pd globName recurse out s HI.
  { by destruct pd. }
  destruct pd as [|cd pd]; [done|]. rewrite walk_cons.
  unfold bind at 1, lift, io_readdir, call.
  pose proof (I_readdir s cd HI) as HI0.
  destruct (readdir cd) as [names|]; [|done]. unfold bind at 1.
  pose proof (real_loop_keeps cd recurse
    (if String.eqb globName "*" then names else micromatch_match names globName)
    pd out _ HI0) as HI1.
  destruct (real_loop _ _ _ _ _ _) as [[[pd1 out1]| |] s1]; [|done..].
  unfold bind.
  pose proof (virtual_loop_keeps cd (_virtual s1 cd globName) out1 s1 HI1) as HI2.
  destruct (virtual_loop _ _ _ _) as [[out2| |] s2]; [by apply IH|done..].
Qed.

Lemma _contents_keeps fuel rootDir globName recurse s :
  I s → I (_contents fuel rootDir globName recurse s).2.
Proof using I_isDir I_outputFor I_readdir.
  intros HI. unfold _contents, bind, lift, io_isDir.
  pose proof (I_isDir s (Val rootDir) HI).
  destruct (truthy (isDir _)); simpl; [by apply walk_keeps|done].
Qed.

Lemma contents_keeps fuel req recurse s :
  I s → I (contents fuel req recurse s).2.
Proof using I_isDir I_outputFor I_readdir.
  intros HI. unfold contents, bind at 1, lift, io_isDir. cbv zeta.
  pose proof (I_isDir s (Val (normalize req)) HI).
  destruct (truthy (isDir _)); [by apply _contents_keeps|].
  destruct (isGlob _); [done|by apply _contents_keeps].
Qed.

Lemma get_keeps fuel req s : I s → I (get fuel req s).2.
Proof using I_isDir I_outputFor I_readdir.
  intros HI. unfold get. destruct (isGlob req); [done|]. unfold bind.
  pose proof (contents_keeps fuel req false s HI).
  destruct (contents _ _ _ s) as [[out|e|] s']; [|done..].
  by destruct (1 <? length out), (length out =? 0).
Qed.
End Preserved.

(** ** Materialization *)

Section Materialization.
Context `{Storage} `{GlobLib} `{PathLib} {Config Gen : Type} `{Parsers Config}.
Import ContentLoader.

Implicit Types (s : ContentLoader.t Config Gen) (v : ref) (p : string).

(** The lookup finds nothing for the paths that are neither stored nor
    inherited. *)
Lemma cache_get_None s p :
  cache_get s p = None ↔ _cache s !! p = None ∧ inherited p = false.
Proof.
  unfold cache_get. destruct (_cache s !! p) as [n|]; [by split; [|intros []]|].
  destruct (inherited p); [by split; [|intros []]|done].
Qed.

(** The two steps of [_outputFor] keep the cache sound wherever other
    calls run between them; it is the entries of the cache that an
    overlapping call can replace. *)
Lemma _outputFor_begin_wf p (g : jsval Gen) s r s' :
  _outputFor_begin p g s = (r, s') → wf s →
  wf s' ∧ ∀ pending, r = Ok pending → pending_for p pending.
Proof.
  unfold _outputFor_begin. destruct (cache_get s p) as [v|] eqn:Hget.
  { intros [= <- <-] Hwf. split; [done|]. by intros pending [= <-]. }
  apply cache_get_None in Hget as [Hnone Hown]. destruct g as [| |g].
  - intros Hrun Hwf.
    apply bind_inv in Hrun as [(file & s1 & Hfile & Hrun) | [(e & Hfile & ->) | (Hfile & ->)]].
    + apply lift_inv in Hfile as [_ Hs1]. injection Hrun as <- <-.
      split; [rewrite Hs1; by apply with_trace_wf|]. by intros pending [= <-].
    + apply lift_inv in Hfile as [_ Hs1]. split; [rewrite Hs1; by apply with_trace_wf|done].
    + apply lift_inv in Hfile as [_ Hs1]. split; [rewrite Hs1; by apply with_trace_wf|done].
  - intros [= <- <-] Hwf. split; [|by intros pending [= <-]].
    intros q n. simpl. destruct (decide (q = p)) as [->|Hne].
    + rewrite lookup_insert_eq. intros [= <-]. split; [done|].
      eexists. split; [by apply list_lookup_middle|done].
    + rewrite lookup_insert_ne by done. intros Hq.
      destruct (Hwf _ _ Hq) as [? (o & Ho & Hp)]. split; [done|].
      exists o. split; [by apply lookup_app_l_Some|done].
  - intros [= <- <-] Hwf. split; [|by intros pending [= <-]].
    intros q n. simpl. destruct (decide (q = p)) as [->|Hne].
    + rewrite lookup_insert_eq. intros [= <-]. split; [done|].
      eexists. split; [by apply list_lookup_middle|done].
    + rewrite lookup_insert_ne by done. intros Hq.
      destruct (Hwf _ _ Hq) as [? (o & Ho & Hp)]. split; [done|].
      exists o. split; [by apply lookup_app_l_Some|done].
Qed.

Lemma _outputFor_end_wf p (pending : Pending) s :
  wf s → pending_for p pending → wf (_outputFor_end p pending s).2.
Proof.
  intros Hwf Hpending. destruct pending as [v|o]; [done|].
  destruct Hpending as [Hpath Hown]. intros q n. simpl.
  destruct (decide (q = p)) as [->|Hne].
  - rewrite lookup_insert_eq. intros [= <-]. split; [done|].
    exists o. split; [by apply list_lookup_middle|done].
  - rewrite lookup_insert_ne by done. intros Hq.
    destruct (Hwf _ _ Hq) as [? (o' & Ho' & Hp')]. split; [done|].
    exists o'. split; [by apply lookup_app_l_Some|done].
Qed.

(** The two ways in which [_outputFor] returns: what the lookup finds, or
    a new object at the end of the heap, stored under the path. *)
Lemma _outputFor_Ok_cases p (g : jsval Gen) s v s' :
  _outputFor p g s = (Ok v, s') →
  (cache_get s p = Some v ∧ s' = s) ∨
  (cache_get s p = None ∧ v = Obj (length (heap s)) ∧
   ∃ file, _cache s' = <[p := length (heap s)]> (_cache s) ∧
     heap s' = heap s ++ [{| path := p; gen := g; cf := file |}] ∧
     _gen s' = _gen s ∧ _dir s' = _dir s ∧
     match g with
     | Undefined => ContentFile._buildFromSource p (trace s) = (Ok file, trace s')
     | _ => file = ContentFile.new p Undefined Undefined ∧ trace s' = trace s
     end).
Proof.
  rewrite _outputFor_run. destruct (cache_get s p) as [v0|] eqn:Hlook.
  { intros [= <- <-]. by left. }
  intros Hrun. right. split; [done|].
  apply bind_inv in Hrun as [(file & s1 & Hfile & Hrun) | [(? & _ & ?) | (_ & ?)]];
    [|done..].
  unfold store in Hrun. injection Hrun as <- <-.
  destruct g as [| |g].
  - apply lift_inv in Hfile as [Hfile ->]. split; [done|]. by exists file.
  - injection Hfile as <- <-. split; [done|]. by eexists.
  - injection Hfile as <- <-. split; [done|]. by eexists.
Qed.

Lemma _outputFor_Throw_inv p (g : jsval Gen) s e s' :
  _outputFor p g s = (Throw e, s') →
  g = Undefined ∧ cache_get s p = None ∧ s' = with_trace s (trace s') ∧
  ContentFile._buildFromSource p (trace s) = (Throw e, trace s').
Proof.
  rewrite _outputFor_run. destruct (cache_get s p) as [v0|] eqn:Hlook; [done|].
  intros Hrun.
  apply bind_inv in Hrun as [(file & s1 & Hfile & Hrun) | [(e' & Hfile & He) | (_ & ?)]];
    [done| |done].
  injection He as ->. destruct g; [|done..].
  by apply lift_inv in Hfile as [Hfile Hs'].
Qed.

(** A source that cannot be built fails in the same way from every trace,
    and each attempt reads the file once more. *)
Lemma _buildFromSource_fails_again fullPath tr e tr' :
  ContentFile._buildFromSource (Config:=Config) fullPath tr = (Throw e, tr') →
  ∀ tr2, ∃ tr2',
    ContentFile._buildFromSource (Config:=Config) fullPath tr2 = (Throw e, tr2') ∧
    reads tr2' = S (reads tr2).
Proof.
  unfold ContentFile._buildFromSource. case_bool_decide; [|done].
  unfold bind, io_readFile, run_yamlPrefix, run_YAML_parse, call.
  destruct (readFile _) as [text|].
  2: { intros [= <- <-] tr2. by eexists. }
  destruct (String.eqb _ ".md").
  { destruct (yamlPrefix text); [done|]. intros [= <- <-] tr2. by eexists. }
  destruct (String.eqb _ ".yaml"); [|done].
  destruct (YAML_parse text); [done|]. intros [= <- <-] tr2. by eexists.
Qed.

(** A materialization that fails leaves nothing behind. [_outputFor]
    throws only for a path that is not cached and that it takes for a real
    file; the cache and the heap are then as before, so the next call for
    the path does not find an entry: it reads the file again and fails in
    the same way. *)
Theorem failed_materialization_is_not_cached p (g : jsval Gen) s e s' :
  _outputFor p g s = (Throw e, s') →
  g = Undefined ∧ _cache s' = _cache s ∧ heap s' = heap s ∧ _cache s' !! p = None ∧
  (_outputFor p g s').1 = Throw e ∧
  reads (trace (_outputFor p g s').2) = S (reads (trace s')).
Proof.
  intros Hrun. apply _outputFor_Throw_inv in Hrun as (-> & Hnone & Hs' & Hbuild).
  assert (_cache s' = _cache s ∧ heap s' = heap s) as [Hc Hh] by (by rewrite Hs').
  destruct (_buildFromSource_fails_again _ _ _ _ Hbuild (trace s')) as (tr2 & Hb2 & Hreads).
  assert (cache_get s' p = None) as Hnone' by (unfold cache_get in *; by rewrite Hc).
  assert (_outputFor p Undefined s' = (Throw e, with_trace s' tr2)) as ->.
  { rewrite _outputFor_run, Hnone'. unfold bind, lift. by rewrite Hb2. }
  apply cache_get_None in Hnone' as [Hnone' _].
  split_and!; done.
Qed.

(** A path that is not stored in the cache and is not a key that the cache
    object inherits, when it is resolved with a generator by a call that no
    other call overlaps, gets a new object with that path and generator and
    a record without configuration and with the content [null]. No call is
    made on the storage or on a parser, neither then nor by [read()] on the
    record. *)
Theorem virtual_entry_makes_no_call p (g : jsval Gen) s :
  _cache s !! p = None → inherited p = false → g ≠ Undefined →
  let file : ContentFile.t Config := ContentFile.new p Undefined Undefined in
  let n := length (heap s) in
  ∃ s', _outputFor p g s = (Ok (Obj n), s') ∧
    trace s' = trace s ∧
    heap s' = heap s ++ [{| path := p; gen := g; cf := file |}] ∧
    _cache s' = <[p := n]> (_cache s) ∧
    ContentFile.config file = Null ∧
    ∀ tr, ContentFile.read file tr = (Ok Null, file, tr).
Proof.
  intros Hstored Hp Hg file n.
  assert (cache_get s p = None) as Hnone by (by apply cache_get_None).
  destruct (_outputFor p g s) as [r s'] eqn:Hrun. exists s'.
  assert (r = Ok (Obj n)) as ->.
  { rewrite _outputFor_run, Hnone in Hrun.
    destruct g; [done|..]; by injection Hrun as <- _. }
  split; [done|].
  destruct (_outputFor_Ok_cases _ _ _ _ _ Hrun) as [[? _]|(_ & _ & f & Hc & Hh & _ & _ & Hf)];
    [congruence|].
  destruct g; [done|..]; destruct Hf as [-> Htr]; by split_and!.
Qed.
End Materialization.

(** ** The registry *)

Section Registrations.
Context `{Storage} `{GlobLib} `{PathLib} {Config Gen : Type} `{Parsers Config}.
Import ContentLoader.

Implicit Types (s : ContentLoader.t Config Gen) (r : Registration Gen).

(** [register] adds to the end: the offers made before are all made after,
    in the same order, and the new registration adds at most one, after
    them. *)
Theorem register_then_virtual dir name (g : jsval Gen) s candidateDir candidateName :
  _virtual (register dir name g s) candidateDir candidateName =
    _virtual s candidateDir candidateName ++
    match virtual_of candidateDir candidateName
            {| reg_dir := dir; reg_name := name; reg_gen := g |} with
    | Some vf => [vf]
    | None => []
    end.
Proof.
  unfold _virtual, register. simpl. rewrite omap_app. by f_equal.
Qed.

(** Every offer of [_virtual] comes from a registration whose directory
    pattern the candidate directory satisfies, and carries its generator.
    Its name is the candidate name, when that satisfies the registered
    name, and otherwise the registered name, which is then not a glob and
    is asked for by the star or satisfies the candidate. There are no more
    offers than registrations. *)
Theorem virtual_offers_are_sound s candidateDir candidateName vf :
  vf ∈ _virtual s candidateDir candidateName →
  length (_virtual s candidateDir candidateName) ≤ length (_gen s) ∧
  ∃ r, r ∈ _gen s ∧
    isMatch candidateDir (reg_dir r) = true ∧ v_gen vf = reg_gen r ∧
    ((isMatch candidateName (reg_name r) = true ∧ v_name vf = candidateName) ∨
     (isMatch candidateName (reg_name r) = false ∧ isGlob (reg_name r) = false ∧
      v_name vf = reg_name r ∧
      (candidateName = "*" ∨ isMatch (reg_name r) candidateName = true))).
Proof.
  intros Hvf. split.
  - unfold _virtual. clear Hvf. induction (_gen s) as [|r rs IH]; [done|].
    cbn. destruct (virtual_of _ _ r); simpl; lia.
  - apply _virtual_elem in Hvf as (r & Hr & Hof). exists r. split; [done|].
    by apply virtual_of_Some.
Qed.
End Registrations.

(** ** Records *)

Section MoreRecords.
Context `{Storage} `{PathLib} {Config : Type} `{Parsers Config}.
Import ContentFile.

Implicit Types (this : ContentFile.t Config) (tr : Trace).

Lemma reads_cons (e : Event) tr :
  reads (e :: tr) = (if is_read e then 1 else 0) + reads tr.
Proof.
  by destruct e.
Qed.

(** [read()] reaches the storage at most once in the life of a record:
    the first call reads at most one file, and every later call returns
    what the first returned, a failure included, and leaves the record
    and the trace as the first left them. *)
Theorem read_at_most_once this tr :
  let '(r, this', tr') := read this tr in
  reads tr' ≤ S (reads tr) ∧
  ∀ n, read_times n this' tr' = (replicate n r, this', tr').
Proof.
  pose proof (read_again this tr) as Hagain.
  destruct (read this tr) as [[r this'] tr'] eqn:Hread. split.
  - unfold read in Hread. destruct (content this) as [[| |text]|p];
      [|by injection Hread as _ _ <-; lia..].
    destruct (strictly_false _); injection Hread as _ _ <-;
      rewrite !reads_cons; simpl; lia.
  - intros n. induction n as [|n IH]; [done|].
    cbn [read_times]. by rewrite Hagain, IH.
Qed.

(** A markup source is read once and given to no parser: the record has
    no configuration and holds the text as it was read. *)
Theorem markup_source fullPath text tr :
  extname fullPath = ".html" → readFile (Val fullPath) = Some text →
  ∃ file, _buildFromSource fullPath tr = (Ok file, EvReadFile (Val fullPath) :: tr) ∧
    config file = Null ∧ content file = Plain (Val text) ∧
    ∀ n, read_times n file tr = (replicate n (Ok (Val text)), file, tr).
Proof.
  intros Hext Hread. unfold _buildFromSource. rewrite Hext.
  rewrite bool_decide_eq_true_2 by (unfold alwaysReadSource; set_solver).
  unfold bind, io_readFile, call. rewrite Hread. simpl.
  eexists. split; [done|]. split_and!; [done..|].
  intros n. by apply read_times_resolved.
Qed.
End MoreRecords.

(** ** The loaders that a client can reach *)

Section Reachable.
Context `{Storage} `{GlobLib} `{PathLib} {Config Gen : Type} `{Parsers Config}.
Import ContentLoader.

Implicit Types (s : ContentLoader.t Config Gen) (v : nat) (p : string).

Lemma _buildFromSource_content fullPath tr (file : ContentFile.t Config) tr' :
  ContentFile._buildFromSource fullPath tr = (Ok file, tr') →
  ∃ c, ContentFile.content file = ContentFile.Plain c ∧ c ≠ Undefined.
Proof.
  unfold ContentFile._buildFromSource. case_bool_decide.
  2: { intros [= <- _]. by exists Null. }
  unfold bind, io_readFile, run_yamlPrefix, run_YAML_parse, call.
  destruct (readFile _) as [text|]; [|done].
  destruct (String.eqb _ ".md").
  { destruct (yamlPrefix text) as [out|]; [|done]. intros [= <- _]. by eexists. }
  destruct (String.eqb _ ".yaml").
  { destruct (YAML_parse text) as [doc|]; [|done]. intros [= <- _]. by eexists. }
  intros [= <- _]. by eexists.
Qed.

(** The state after [_outputFor], however it ends: the cache and the heap
    are as before, or hold one more object, for a path that was not
    cached, with a record that is not unread. *)
Lemma _outputFor_state p (g : jsval Gen) s :
  let s' := (_outputFor p g s).2 in
  _gen s' = _gen s ∧ _dir s' = _dir s ∧
  ((_cache s' = _cache s ∧ heap s' = heap s) ∨
   (_cache s !! p = None ∧
    ∃ file c, _cache s' = <[p := length (heap s)]> (_cache s) ∧
      heap s' = heap s ++ [{| path := p; gen := g; cf := file |}] ∧
      ContentFile.content file = ContentFile.Plain c ∧ c ≠ Undefined)).
Proof.
  cbv zeta. destruct (_outputFor p g s) as [[v|e|] s'] eqn:Hrun; simpl.
  - destruct (_outputFor_Ok_cases _ _ _ _ _ Hrun)
      as [[_ ->]|(Hnone & -> & file & Hc & Hh & Hg & Hd & Hfile)];
      [split_and!; [done..|by left]|].
    split_and!; [done..|]. right. apply cache_get_None in Hnone as [Hnone _].
    split; [done|]. destruct g as [| |g].
    + destruct (_buildFromSource_content _ _ _ _ Hfile) as (c & ? & ?). by exists file, c.
    + destruct Hfile as [-> _]. by exists (ContentFile.new p Undefined Undefined), Null.
    + destruct Hfile as [-> _]. by exists (ContentFile.new p Undefined Undefined), Null.
  - apply _outputFor_Throw_inv in Hrun as (_ & _ & -> & _). split_and!; [done..|by left].
  - by pose proof (total__outputFor p g s) as Htotal; rewrite Hrun in Htotal.
Qed.

Lemma tidy_outputFor p (g : jsval Gen) s : tidy s → tidy (_outputFor p g s).2.
Proof.
  intros Htidy. destruct (_outputFor_state p g s) as (_ & _ & [[Hc Hh]|Hfresh]).
  { intros v o. rewrite Hc, Hh. apply Htidy. }
  destruct Hfresh as (Hnone & file & c & Hc & Hh & _). intros v o. rewrite Hc, Hh.
  intros Ho. apply lookup_app_Some in Ho as [Ho|[Hlen Ho]].
  - specialize (Htidy _ _ Ho). rewrite lookup_insert_ne; [done|].
    intros ->. assert (Some v = None) by (by etrans; [symmetry; exact Htidy|exact Hnone]).
    done.
  - apply list_lookup_singleton_Some in Ho as [Hv <-]. simpl.
    rewrite lookup_insert_eq. f_equal. lia.
Qed.

Lemma resolved_outputFor p (g : jsval Gen) s : resolved s → resolved (_outputFor p g s).2.
Proof.
  intros Hres. destruct (_outputFor_state p g s) as (_ & _ & [[Hc Hh]|Hfresh]).
  { intros v o. rewrite Hh. apply Hres. }
  destruct Hfresh as (Hnone & file & c & Hc & Hh & Hfile & Hne). intros v o. rewrite Hh.
  intros Ho. apply lookup_app_Some in Ho as [Ho|[Hlen Ho]]; [by eapply Hres|].
  apply list_lookup_singleton_Some in Ho as [Hv <-]. by exists c.
Qed.

(** On a loader whose records are resolved [read()] changes nothing. *)
Lemma read_at_resolved v s r s' :
  resolved s → read_at v s = Some (r, s') →
  s' = s ∧ ∃ o c, heap s !! v = Some o ∧
    ContentFile.content (cf o) = ContentFile.Plain c ∧ c ≠ Undefined ∧ r = Ok c.
Proof.
  intros Hres. unfold read_at. destruct (heap s !! v) as [o|] eqn:Ho; [|done].
  destruct (Hres _ _ Ho) as (c & Hc & Hne).
  rewrite (read_resolved _ _ c Hc Hne). intros [= <- <-]. split; [|by exists o, c].
  destruct s as [d gs cache hp tr], o as [po go fo]. simpl in *.
  by rewrite list_insert_id.
Qed.

Lemma after_keeps (I : ContentLoader.t Config Gen → Prop) (c : Call) s :
  (∀ s tr, I s → I (with_trace s tr)) →
  (∀ p (g : jsval Gen) s, I s → I (_outputFor p g s).2) →
  (∀ dir name (g : jsval Gen) s, I s → I (register dir name g s)) →
  (∀ v s r s', I s → read_at v s = Some (r, s') → I s') →
  I s → I (after c s).
Proof.
  intros Htr Hout Hreg Hread HI.
  destruct c as [dir name g|fuel req recurse|fuel req|p g|v]; simpl.
  - by apply Hreg.
  - apply contents_keeps; eauto.
  - apply get_keeps; eauto.
  - by apply Hout.
  - destruct (read_at v s) as [[r s']|] eqn:Hr; [by eapply Hread|done].
Qed.

Lemma after_all_keeps (I : ContentLoader.t Config Gen → Prop) (cs : list Call) :
  (∀ c s, I s → I (after c s)) → ∀ s, I s → I (after_all cs s).
Proof.
  intros Hstep. induction cs as [|c cs IH]; intros s HI; [done|].
  apply IH. by apply Hstep.
Qed.

Lemma reachable_tidy_resolved dir (cs : list Call) :
  let s : ContentLoader.t Config Gen := after_all cs (ContentLoader.new dir) in
  wf s ∧ tidy s ∧ resolved s.
Proof.
  cbv zeta. split; [apply after_all_inv, new_wf|].
  apply (after_all_keeps (λ s, tidy s ∧ resolved s)); [|split; by intros v o Ho].
  intros c s HI. apply after_keeps; [done| | |..|done].
  - intros p g s0 [? ?]. split; [by apply tidy_outputFor|by apply resolved_outputFor].
  - by intros dir0 name g s0 [? ?].
  - intros v s0 r s' [? Hres] Hr. by destruct (read_at_resolved _ _ _ _ Hres Hr) as [-> _].
Qed.


(** Whatever a client has called on a new loader, [read()] on a record of
    the loader returns the content that the record holds, which is not the
    unread marker, and changes nothing: no file is read, the record and
    the trace stay as they are. *)
Theorem loader_read_is_inert dir (cs : list Call) v r s' :
  let s : ContentLoader.t Config Gen := after_all cs (ContentLoader.new dir) in
  read_at v s = Some (r, s') →
  s' = s ∧ ∃ o c, heap s !! v = Some o ∧
    ContentFile.content (cf o) = ContentFile.Plain c ∧ c ≠ Undefined ∧ r = Ok c.
Proof.
  cbv zeta. destruct (reachable_tidy_resolved dir cs) as (_ & _ & Hres).
  by apply read_at_resolved.
Qed.

Lemma after_registrations (c : Call) s :
  _gen (after c s) = _gen s ++ registered [c] ∧ _dir (after c s) = _dir s.
Proof.
  set (I := λ s0 : ContentLoader.t Config Gen, _gen s0 = _gen s ∧ _dir s0 = _dir s).
  assert (HI : I s) by done.
  assert (Hout : ∀ p (g : jsval Gen) s0, I s0 → I (_outputFor p g s0).2).
  { intros p g s0 [Hg Hd]. unfold I. rewrite <- Hg, <- Hd.
    by destruct (_outputFor_state p g s0) as (? & ? & _). }
  assert (Htr : ∀ s0 tr, I s0 → I (with_trace s0 tr)) by done.
  destruct c as [dir name g|fuel req recurse|fuel req|p g|v]; cbn [after registered omap].
  - done.
  - rewrite app_nil_r. apply (contents_keeps I); eauto.
  - rewrite app_nil_r. apply (get_keeps I); eauto.
  - rewrite app_nil_r. by apply Hout.
  - rewrite app_nil_r. unfold read_at. destruct (heap s !! v) as [o|]; [|done].
    by destruct (ContentFile.read _ _) as [[r file] tr].
Qed.

(** The registrations of a loader are those that [register] was called
    with, in the order of the calls: [contents], [get], [_outputFor] and
    [read()] never add, drop or reorder one, however they end. *)
Theorem registrations_are_the_register_calls (cs : list Call) s :
  _gen (after_all cs s) = _gen s ++ registered cs ∧ _dir (after_all cs s) = _dir s.
Proof.
  revert s. induction cs as [|c cs IH]; intros s.
  { by rewrite app_nil_r. }
  cbn [after_all foldl]. fold (after_all cs (after c s)).
  destruct (IH (after c s)) as [-> ->].
  destruct (after_registrations c s) as [-> ->].
  split; [|done]. rewrite <- app_assoc. f_equal.
  unfold registered. cbn [omap list_omap]. by destruct c.
Qed.
End Reachable.

(** ** Walks *)

Section Walks.
Context `{Storage} `{GlobLib} `{PathLib} {Config Gen : Type} `{Parsers Config}.
Import ContentLoader.

Implicit Types (s : ContentLoader.t Config Gen) (v : ref) (p : string).

(** The listing of one directory under any pattern. *)
Lemma _contents_flat_listing fuel rootDir globName s out s' :
  wf s → truthy (isDir (Val rootDir)) = true →
  _contents fuel rootDir globName false s = (Ok out, s') →
  ∃ names, readdir rootDir = Some names ∧
    Forall2 (resolves s') out
      (files_in rootDir (selected names globName) ++
       ((λ vf, join rootDir (v_name vf)) <$> _virtual s rootDir globName)).
Proof.
  intros Hwf Hroot. unfold _contents, bind at 1, lift, io_isDir. rewrite Hroot.
  set (s0 := with_trace s _). simpl. intros Hrun.
  destruct fuel as [|fuel]; [done|]. rewrite walk_cons in Hrun.
  apply bind_inv in Hrun as [(names & s1 & Hdc & Hrun) | [(? & _ & ?) | (_ & ?)]];
    [|done..].
  apply lift_inv in Hdc as [Hdc Hs1]. unfold io_readdir, call in Hdc.
  destruct (readdir rootDir) as [names'|]; [|done]. injection Hdc as -> _.
  exists names. split; [done|]. cbv zeta in Hrun.
  assert (wf s1 ∧ _gen s1 = _gen s) as [Hwf1 Hgen1] by (by rewrite Hs1).
  apply bind_inv in Hrun as [([pd1 out1] & s2 & Hreal & Hrun) | [(? & _ & ?) | (_ & ?)]];
    [|done..].
  pose proof (real_loop_flat _ _ _ _ _ _ _ _ Hreal) as ->.
  destruct (real_loop_paths _ _ _ _ _ _ _ _ _ Hreal Hwf1 (Forall_nil_2 _))
    as (new1 & -> & Hnew1).
  apply real_loop_inv in Hreal as (Hwf2 & _ & Hgen2 & Hout2); [|done..].
  specialize (Hout2 _ _ eq_refl).
  apply bind_inv in Hrun as [(out2 & s3 & Hvirt & Hrun) | [(? & _ & ?) | (_ & ?)]];
    [|done..].
  destruct (virtual_loop_paths _ _ _ _ _ _ Hvirt Hwf2 Hout2) as (new2 & -> & Hnew2).
  apply virtual_loop_inv in Hvirt as (_ & Hg3 & _); [|done..].
  assert (out = new1 ++ new2 ∧ s' = s3) as [-> ->].
  { destruct fuel; unfold walk, ret in Hrun; by simplify_eq. }
  apply Forall2_app.
  - eapply Forall2_impl; [done|]. intros v p. by apply resolves_grows.
  - unfold _virtual in *. by rewrite <- Hgen1, <- Hgen2.
Qed.

(** A request that is not a directory, in a directory that exists, made
    by a call that no other call overlaps: the list returned without
    recursion holds, in this order, an entry for each name of the directory
    that the file-name part of the request keeps and that is not a
    directory, and an entry for each virtual match of the directory under
    that file-name part. The entry for a path is what the path resolves to:
    the object of the path, or the built-in under the path when the path
    is a key that the cache object inherits. A name that is a directory
    gives no entry. *)
Theorem contents_pattern_listing fuel req s out s' :
  wf s →
  truthy (isDir (Val (normalize req))) = false →
  isGlob (dirname (normalize req)) = false →
  truthy (isDir (Val (dirname (normalize req)))) = true →
  contents fuel req false s = (Ok out, s') →
  let dir := dirname (normalize req) in
  let name := basename (normalize req) in
  ∃ names, readdir dir = Some names ∧
    Forall2 (resolves s') out
      (files_in dir (selected names name) ++
       ((λ vf, join dir (v_name vf)) <$> _virtual s dir name)).
Proof.
  intros Hwf Hreq Hglob Hdir Hrun. cbv zeta.
  unfold contents, bind at 1, lift, io_isDir in Hrun. cbv zeta in Hrun.
  rewrite Hreq, Hglob in Hrun.
  by apply _contents_flat_listing in Hrun.
Qed.

(** The first loop with and without [recurse]: the same entries and the
    same state; with [recurse] the names that are directories are put at
    the end of the queue, in the order of the listing. *)
Lemma real_loop_queue cd recurse mf : ∀ pd (out : list ref) s,
  real_loop cd recurse mf pd out s =
    match real_loop cd false mf [] out s with
    | (Ok (_, out'), s') => (Ok (pd ++ (if recurse then dirs_in cd mf else []), out'), s')
    | (Throw e, s') => (Throw e, s')
    | (OutOfFuel, s') => (OutOfFuel, s')
    end.
Proof.
  induction mf as [|raw mf IH]; intros pd out s.
  { unfold dirs_in. cbn. destruct recurse; by rewrite app_nil_r. }
  rewrite !real_loop_cons. cbv zeta. unfold dirs_in.
  destruct (truthy (isDir (Val (join cd raw)))) eqn:Hd.
  - rewrite filter_cons_True by done. rewrite IH. unfold dirs_in.
    destruct (real_loop cd false mf [] out _) as [[[pd1 out1]| |] s1]; [|done..].
    destruct recurse; [|done]. by rewrite fmap_cons, <- app_assoc.
  - rewrite filter_cons_False by (by rewrite Hd). unfold bind.
    destruct (_outputFor _ _ _) as [[v|e|] s1]; [|done..].
    by rewrite IH.
Qed.

(** The pattern is for the root only. A walk with [recurse] is the listing
    of the root without recursion, under the pattern of the request,
    followed by the walk of the names of the root that the pattern keeps
    and that are directories, in the order of the listing, under the star,
    with the entries of the root at the head of the result. A failure in
    the listing of the root is the failure of the walk. *)
Theorem recursion_after_root fuel rootDir globName s :
  truthy (isDir (Val rootDir)) = true →
  _contents (S fuel) rootDir globName true s =
    match _contents 1 rootDir globName false s with
    | (Ok out1, s1) =>
        walk fuel (dirs_in rootDir (selected (default [] (readdir rootDir)) globName))
          "*" true out1 s1
    | (Throw e, s1) => (Throw e, s1)
    | (OutOfFuel, s1) => (OutOfFuel, s1)
    end.
Proof.
  intros Hroot.
  assert (Hstart : ∀ n recurse,
    _contents (S n) rootDir globName recurse s =
      walk (S n) [rootDir] globName recurse []
        (with_trace s (EvIsDir (Val rootDir) :: trace s))).
  { intros n recurse. unfold _contents, bind, lift, io_isDir. by rewrite Hroot. }
  rewrite !Hstart, !walk_cons. unfold bind, lift, io_readdir, call.
  destruct (readdir rootDir) as [names|]; [|done]. cbv zeta. simpl.
  fold (selected names globName).
  rewrite (real_loop_queue rootDir true).
  destruct (real_loop rootDir false _ [] [] _) as [[[pd1 out1]| |] s1] eqn:Hreal;
    [|done..].
  apply real_loop_flat in Hreal as ->.
  destruct (virtual_loop _ _ _ _) as [[out2| |] s2]; [|done..].
  done.
Qed.
End Walks.

(** ** The entries of the real files *)

Section RealEntries.
Context `{Storage} `{GlobLib} `{PathLib} {Config Gen : Type} `{Parsers Config}.
Import ContentLoader.

Implicit Types (s : ContentLoader.t Config Gen) (v : ref) (p : string).

(** The entry of a real file stays one as the loader grows. *)
Lemma recorded_grows s s1 s' v p :
  wf s' → grows s1 s' → cache_get s1 p = Some v → recorded s s1 v p →
  cache_get s' p = Some v ∧ recorded s s' v p.
Proof.
  intros Hwf' Hg Hget Hrec. split; [by eapply cache_get_grows|].
  destruct v as [n|key]; [|done]. destruct Hg as [Hcache Hheap].
  destruct Hrec as (o & Hc & Ho & Hp & Hgen).
  destruct (Hheap _ _ Ho) as (o' & Ho' & Hp' & Hgen').
  exists o'. split_and!; [by apply Hcache|done|congruence|].
  intros Hnone. rewrite Hgen'. by apply Hgen.
Qed.

Lemma recorded_before s s1 s' v p :
  (_cache s !! p = None → _cache s1 !! p = None) → recorded s1 s' v p → recorded s s' v p.
Proof.
  intros Hbefore. destruct v as [n|key]; [|done].
  intros (o & Hc & Ho & Hp & Hgen). exists o. split_and!; [done..|].
  intros Hnone. by apply Hgen, Hbefore.
Qed.

(** An object that [_outputFor] makes without a generator keeps none. *)
Lemma fresh_real_entry p s v s1 :
  wf s → _outputFor p (Undefined : jsval Gen) s = (Ok v, s1) →
  cache_get s1 p = Some v ∧ recorded s s1 v p.
Proof.
  intros Hwf Hrun.
  destruct (_outputFor_inv _ _ _ _ _ Hrun Hwf) as (Hwf1 & _ & _ & Hv).
  destruct (Hv _ eq_refl) as (Hget & _ & Hres). split; [done|].
  destruct v as [n|key]; [|done]. destruct Hres as (o & Ho & Hp).
  assert (_cache s1 !! p = Some n) as Hc.
  { unfold cache_get in Hget. destruct (_cache s1 !! p) as [n'|]; [by injection Hget as ->|].
    by destruct (inherited p). }
  exists o. split_and!; [done..|]. intros Hnone.
  destruct (_outputFor_Ok_cases _ _ _ _ _ Hrun)
    as [[Hhit _]|(_ & Hn & file & _ & Hh & _)].
  { unfold cache_get in Hhit. rewrite Hnone in Hhit. by destruct (inherited p). }
  injection Hn as ->.
  rewrite Hh, list_lookup_middle in Ho by done. by injection Ho as <-.
Qed.

Lemma real_loop_real_entries cd recurse mf : ∀ pd (out : list ref) s pd' out' s',
  real_loop cd recurse mf pd out s = (Ok (pd', out'), s') →
  wf s → Forall (listed s) out →
  ∀ raw, raw ∈ mf → truthy (isDir (Val (join cd raw))) = false →
    ∃ v, v ∈ out' ∧ cache_get s' (join cd raw) = Some v ∧ recorded s s' v (join cd raw).
Proof.
  induction mf as [|raw0 mf IH]; intros pd out s pd' out' s' Hrun Hwf Hout raw Hin Hfile.
  { by apply elem_of_nil in Hin. }
  rewrite real_loop_cons in Hrun. cbv zeta in Hrun.
  set (s0 := with_trace s _) in Hrun.
  destruct (truthy (isDir (Val (join cd raw0)))) eqn:Hd.
  { apply elem_of_cons in Hin as [->|Hin]; [congruence|].
    by apply (IH _ _ s0 _ _ _ Hrun). }
  apply bind_inv in Hrun as [(v0 & s1 & Hv0 & Hrun) | [(? & _ & ?) | (_ & ?)]]; [|done..].
  destruct (_outputFor_inv _ _ _ _ _ Hv0 Hwf) as (Hwf1 & Hg1 & _ & Hv).
  destruct (Hv _ eq_refl) as (_ & Hlisted1 & _).
  assert (Forall (listed s1) (out ++ [v0])) as Hout1.
  { apply Forall_app. split; [|by apply Forall_singleton].
    eapply Forall_listed_grows; [|done].
    eapply grows_trans; [apply with_trace_grows|done]. }
  destruct (real_loop_paths _ _ _ _ _ _ _ _ _ Hrun Hwf1 Hout1) as (new & Hout' & _).
  destruct (real_loop_inv _ _ _ _ _ _ _ _ Hrun Hwf1 Hout1) as (Hwf' & Hg2 & _).
  destruct (fresh_real_entry _ s0 _ _ Hwf Hv0) as [Hget0 Hrec0].
  destruct (recorded_grows _ _ _ _ _ Hwf' Hg2 Hget0 Hrec0) as [Hget0' Hrec0'].
  destruct (decide (join cd raw = join cd raw0)) as [Heq|Hne].
  { rewrite Heq. exists v0. split_and!; [|done..]. rewrite Hout'.
    rewrite !elem_of_app, list_elem_of_singleton. by left; right. }
  apply elem_of_cons in Hin as [->|Hin]; [done|].
  destruct (IH _ _ _ _ _ _ Hrun Hwf1 Hout1 raw Hin Hfile) as (v & Hv' & Hget & Hrec).
  exists v. split_and!; [done..|]. eapply recorded_before; [|done]. intros Hnone.
  destruct (_outputFor_Ok_cases _ _ _ _ _ Hv0)
    as [[_ ->]|(_ & _ & file & -> & _)]; [done|].
  by rewrite lookup_insert_ne.
Qed.

(** A walk adds to the list that it is given. *)
Lemma virtual_loop_extends cd (vfs : list (Virtual Gen)) (out : list ref) s out' s' :
  virtual_loop cd vfs out s = (Ok out', s') → wf s → Forall (listed s) out →
  ∃ new, out' = out ++ new.
Proof.
  intros Hrun Hwf Hout.
  destruct (virtual_loop_paths _ _ _ _ _ _ Hrun Hwf Hout) as (new & -> & _). by exists new.
Qed.

Lemma walk_extends fuel : ∀ pd globName recurse (out : list ref) s out' s',
  walk fuel pd globName recurse out s = (Ok out', s') → wf s → Forall (listed s) out →
  ∃ new, out' = out ++ new.
Proof.
  induction fuel as [|fuel IH]; intros pd globName recurse out s out' s' Hrun Hwf Hout.
  { destruct pd; [|done]. injection Hrun as <- _. exists []. by rewrite app_nil_r. }
  destruct pd as [|cd pd].
  { injection Hrun as <- _. exists []. by rewrite app_nil_r. }
  rewrite walk_cons in Hrun.
  apply bind_inv in Hrun as [(names & s0 & Hdc & Hrun) | [(? & _ & ?) | (_ & ?)]];
    [|done..].
  apply lift_inv in Hdc as [_ Hs0].
  assert (wf s0 ∧ Forall (listed s0) out) as [Hwf0 Hout0] by (by rewrite Hs0).
  apply bind_inv in Hrun as [([pd1 out1] & s1 & Hreal & Hrun) | [(? & _ & ?) | (_ & ?)]];
    [|done..].
  destruct (real_loop_paths _ _ _ _ _ _ _ _ _ Hreal Hwf0 Hout0) as (new1 & -> & _).
  apply real_loop_inv in Hreal as (Hwf1 & _ & _ & Hout1); [|done..].
  specialize (Hout1 _ _ eq_refl).
  apply bind_inv in Hrun as [(out2 & s2 & Hvirt & Hrun) | [(? & _ & ?) | (_ & ?)]];
    [|done..].
  destruct (virtual_loop_extends _ _ _ _ _ _ Hvirt Hwf1 Hout1) as (new2 & ->).
  apply virtual_loop_inv in Hvirt as (Hwf2 & _ & _ & Hout2); [|done..].
  destruct (IH _ _ _ _ _ _ _ Hrun Hwf2 (Hout2 _ eq_refl)) as (new3 & ->).
  exists (new1 ++ new2 ++ new3). by rewrite !app_assoc.
Qed.

(** A file of the storage that a walk lists at its root is recorded as a
    real file, when no other call overlaps the walk. The list has an entry
    for it, which is what the lookup of the cache finds for its path after
    the walk. The entry is an object with that path; if the cache held no
    entry for the path before the walk, the object has no generator,
    whatever registrations produce the same path: the real names are
    resolved before the virtual ones, and the first resolution of a path
    is the one that stays. The one exception is a path that is a key which
    the cache object inherits: its entry is the built-in under that key. *)
Theorem real_file_recorded_without_generator fuel rootDir globName recurse s out s'
    names raw :
  wf s → truthy (isDir (Val rootDir)) = true → readdir rootDir = Some names →
  _contents fuel rootDir globName recurse s = (Ok out, s') →
  raw ∈ selected names globName →
  truthy (isDir (Val (join rootDir raw))) = false →
  ∃ v, v ∈ out ∧ cache_get s' (join rootDir raw) = Some v ∧
    match v with
    | Obj n =>
        ∃ o, _cache s' !! join rootDir raw = Some n ∧ heap s' !! n = Some o ∧
          path o = join rootDir raw ∧
          (_cache s !! join rootDir raw = None → gen o = Undefined)
    | Builtin key => key = join rootDir raw ∧ inherited (join rootDir raw) = true
    end.
Proof.
  intros Hwf Hroot Hnames Hrun Hraw Hfile.
  unfold _contents, bind at 1, lift, io_isDir in Hrun. rewrite Hroot in Hrun.
  simpl in Hrun. destruct fuel as [|fuel]; [done|]. rewrite walk_cons in Hrun.
  unfold bind at 1, lift, io_readdir, call in Hrun. rewrite Hnames in Hrun.
  cbv zeta in Hrun. simpl in Hrun. fold (selected names globName) in Hrun.
  set (s0 := with_trace _ _) in Hrun.
  apply bind_inv in Hrun as [([pd1 out1] & s1 & Hreal & Hrun) | [(? & _ & ?) | (_ & ?)]];
    [|done..].
  destruct (real_loop_real_entries _ _ _ _ _ _ _ _ _ Hreal Hwf (Forall_nil_2 _)
              raw Hraw Hfile) as (v & Hv & Hget & Hrec).
  apply real_loop_inv in Hreal as (Hwf1 & _ & _ & Hout1); [|done..].
  specialize (Hout1 _ _ eq_refl).
  apply bind_inv in Hrun as [(out2 & s2 & Hvirt & Hrun) | [(? & _ & ?) | (_ & ?)]];
    [|done..].
  destruct (virtual_loop_extends _ _ _ _ _ _ Hvirt Hwf1 Hout1) as (new2 & ->).
  apply virtual_loop_inv in Hvirt as (Hwf2 & Hg2 & _ & Hout2); [|done..].
  destruct (walk_extends _ _ _ _ _ _ _ _ Hrun Hwf2 (Hout2 _ eq_refl)) as (new3 & ->).
  apply walk_inv in Hrun as (Hwf3 & Hg3 & _); [|done|by apply Hout2].
  destruct (recorded_grows s0 _ _ _ _ Hwf3 (grows_trans _ _ _ Hg2 Hg3) Hget Hrec)
    as [Hget' Hrec'].
  exists v. split_and!; [|done|done].
  rewrite !elem_of_app. by left; left.
Qed.
End RealEntries.

(** ** The directories that a call lists *)

Section Listed.
Context `{Storage} `{GlobLib} `{PathLib} {Config Gen : Type} `{Parsers Config}.
Import ContentLoader.

Implicit Types (s : ContentLoader.t Config Gen) (v : ref) (p : string).

Lemma readdirs_cons (e : Event) tr :
  readdirs (e :: tr) = (if is_readdir e then 1 else 0) + readdirs tr.
Proof. by destruct e. Qed.

Lemma _buildFromSource_readdirs fullPath tr :
  readdirs (ContentFile._buildFromSource (Config:=Config) fullPath tr).2 = readdirs tr.
Proof.
  unfold ContentFile._buildFromSource. case_bool_decide; [|done].
  unfold bind, io_readFile, run_yamlPrefix, run_YAML_parse, call.
  destruct (readFile _) as [text|]; [|done].
  destruct (String.eqb _ ".md"); [by destruct (yamlPrefix text)|].
  destruct (String.eqb _ ".yaml"); [by destruct (YAML_parse text)|done].
Qed.

Lemma _outputFor_readdirs p (g : jsval Gen) s :
  readdirs (trace (_outputFor p g s).2) = readdirs (trace s).
Proof.
  rewrite _outputFor_run. destruct (cache_get s p); [done|].
  unfold bind, store. destruct g; [|done..]. unfold lift.
  pose proof (_buildFromSource_readdirs p (trace s)) as Hb.
  by destruct (ContentFile._buildFromSource p (trace s)) as [[file| |] tr].
Qed.

Lemma _contents_flat_readdirs fuel rootDir globName s :
  readdirs (trace (_contents fuel rootDir globName false s).2) ≤ S (readdirs (trace s)).
Proof.
  set (n := readdirs (trace s)).
  set (I := λ s0 : ContentLoader.t Config Gen, readdirs (trace s0) = S n).
  assert (HisDir : ∀ s0 q, I s0 → I (with_trace s0 (EvIsDir q :: trace s0))) by done.
  assert (Hout : ∀ p (g : jsval Gen) s0, I s0 → I (_outputFor p g s0).2).
  { intros p g s0 HI. unfold I. by rewrite _outputFor_readdirs. }
  unfold _contents, bind at 1, lift, io_isDir.
  destruct (truthy (isDir _)); simpl; [|by rewrite readdirs_cons; simpl; lia].
  destruct fuel as [|fuel];
    [unfold walk, out_of_fuel; simpl; rewrite readdirs_cons; simpl; lia|].
  rewrite walk_cons. unfold bind at 1, lift, io_readdir, call.
  destruct (readdir rootDir) as [names|];
    [|simpl; rewrite !readdirs_cons; simpl; lia].
  cbv zeta. unfold bind at 1.
  match goal with |- context [real_loop _ _ _ _ _ ?st] => set (s1 := st) end.
  assert (HI1 : I s1) by (unfold I, s1; simpl; by rewrite !readdirs_cons).
  pose proof (real_loop_keeps I HisDir Hout rootDir false
    (if String.eqb globName "*" then names else micromatch_match names globName)
    [] [] s1 HI1) as HI2.
  destruct (real_loop _ _ _ _ _ _) as [[[pd1 out1]| |] s2] eqn:Hreal;
    [|unfold I in HI2; simpl in *; lia..].
  apply real_loop_flat in Hreal as ->. unfold bind.
  pose proof (virtual_loop_keeps I Hout rootDir (_virtual s2 rootDir globName) out1 s2 HI2)
    as HI3.
  destruct (virtual_loop _ _ _ _) as [[out2| |] s3];
    [|unfold I in HI3; simpl in *; lia..].
  destruct fuel; unfold I in HI3; simpl in *; lia.
Qed.

(** Without [recurse] a call lists one directory at most: [contents], and
    so [get], ask the storage for one listing or for none, whatever the
    directory holds and however the call ends. The directories found in
    the listing are tested and left alone. *)
Theorem flat_calls_list_one_directory fuel req s :
  readdirs (trace (contents fuel req false s).2) ≤ S (readdirs (trace s)) ∧
  readdirs (trace (get fuel req s).2) ≤ S (readdirs (trace s)).
Proof.
  assert (Hc : readdirs (trace (contents fuel req false s).2) ≤ S (readdirs (trace s))).
  { unfold contents, bind at 1, lift, io_isDir. cbv zeta.
    set (s0 := with_trace s _).
    assert (readdirs (trace s0) = readdirs (trace s)) as <- by done.
    destruct (truthy (isDir _)); [apply _contents_flat_readdirs|].
    destruct (isGlob _); [simpl; lia|apply _contents_flat_readdirs]. }
  split; [done|]. unfold get. destruct (isGlob req); [simpl; lia|]. unfold bind.
  destruct (contents _ _ _ s) as [[out| |] s']; [|done..].
  by destruct (1 <? length out), (length out =? 0).
Qed.
End Listed.

(** ** The further properties on concrete inputs *)

Section MoreExamples.
Import ContentLoader Demo.

(** [missing.md] is not on the storage, and its extension is read at
    once. *)
Lemma failed_materialization_is_not_cached_witness :
  let e := StorageFailure (EvReadFile (Val "pages/foo/missing.md")) in
  let s' := (_outputFor "pages/foo/missing.md" Undefined loader).2 in
  _outputFor "pages/foo/missing.md" Undefined loader = (Throw e, s') ∧
  _cache s' = _cache loader ∧ heap s' = heap loader ∧
  (_outputFor "pages/foo/missing.md" Undefined s').1 = Throw e ∧
  reads (trace (_outputFor "pages/foo/missing.md" Undefined s').2) = S (reads (trace s')).
Proof.
  intros e s'.
  assert (Hrun : _outputFor "pages/foo/missing.md" Undefined loader = (Throw e, s'))
    by (vm_compute; reflexivity).
  split; [exact Hrun|].
  destruct (failed_materialization_is_not_cached _ _ _ _ _ Hrun)
    as (_ & Hc & Hh & _ & Hagain & Hreads).
  by split_and!.
Defined.

(** The draft that a registration of [loader] generates. *)
Lemma virtual_entry_makes_no_call_witness :
  _cache loader !! "pages/foo/draft-1.md" = None ∧
  inherited "pages/foo/draft-1.md" = false ∧
  (Val "drafts" : jsval string) ≠ Undefined ∧
  ∃ s', _outputFor "pages/foo/draft-1.md" (Val "drafts") loader = (Ok (Obj 0), s') ∧
    trace s' = [] ∧
    heap s' = [{| path := "pages/foo/draft-1.md"; gen := Val "drafts";
                  cf := ContentFile.new "pages/foo/draft-1.md" Undefined Undefined |}].
Proof.
  split; [reflexivity|]. split; [reflexivity|]. split; [discriminate|].
  assert (Hnone : _cache loader !! "pages/foo/draft-1.md" = None) by reflexivity.
  assert (Hown : inherited "pages/foo/draft-1.md" = false) by reflexivity.
  assert (Hgen : (Val "drafts" : jsval string) ≠ Undefined) by discriminate.
  destruct (virtual_entry_makes_no_call "pages/foo/draft-1.md" (Val "drafts") loader
              Hnone Hown Hgen) as (s' & Hrun & Htr & Hh & _).
  exists s'. by split_and!.
Defined.

(** The one offer of the listing of [pages/foo]. *)
Lemma virtual_offers_are_sound_witness :
  {| v_name := "index.html"; v_gen := Val "index" |} ∈ _virtual loader "pages/foo" "*" ∧
  length (_virtual loader "pages/foo" "*") ≤ 2 ∧
  ∃ r : Registration string, r ∈ _gen loader ∧
    isMatch "pages/foo" (reg_dir r) = true ∧ reg_gen r = Val "index".
Proof.
  assert (Hin : {| v_name := "index.html"; v_gen := Val "index" |}
                  ∈ _virtual loader "pages/foo" "*") by (vm_compute; constructor).
  split; [exact Hin|].
  destruct (virtual_offers_are_sound loader "pages/foo" "*" _ Hin) as (Hlen & r & Hr & Hdir & Hgen & _).
  split; [exact Hlen|]. exists r. by split_and!.
Defined.

(** [index.html] of [pages/foo]. *)
Lemma markup_source_witness :
  extname "pages/foo/index.html" = ".html" ∧
  readFile (Val "pages/foo/index.html") = Some "<p>hi</p>" ∧
  ∃ file : ContentFile.t string,
    ContentFile._buildFromSource "pages/foo/index.html" [] =
      (Ok file, [EvReadFile (Val "pages/foo/index.html")]) ∧
    ContentFile.config file = Null ∧
    ContentFile.content file = ContentFile.Plain (Val "<p>hi</p>").
Proof.
  split; [reflexivity|]. split; [reflexivity|].
  assert (Hext : extname "pages/foo/index.html" = ".html") by reflexivity.
  assert (Hread : readFile (Val "pages/foo/index.html") = Some "<p>hi</p>") by reflexivity.
  destruct (markup_source "pages/foo/index.html" "<p>hi</p>" [] Hext Hread)
    as (file & Hb & Hc & Hcontent & _).
  exists file. by split_and!.
Defined.

(** [read()] on the record of [notes.txt], after a listing. *)
Lemma loader_read_is_inert_witness :
  let s : ContentLoader.t string string :=
    after_all [CallRegister "pages/*" "index.html" (Val "index");
               CallContents 1 "pages/foo" false] (ContentLoader.new "pages") in
  read_at 2 s = Some (Ok Null, s) ∧
  ∃ o c, heap s !! 2 = Some o ∧
    ContentFile.content (cf o) = ContentFile.Plain c ∧ c ≠ Undefined ∧
    (Ok Null : result (jsval string)) = Ok c.
Proof.
  intros s.
  assert (Hr : read_at 2 s = Some (Ok Null, s)) by (vm_compute; reflexivity).
  split; [exact Hr|].
  exact (proj2 (loader_read_is_inert "pages"
                  [CallRegister "pages/*" "index.html" (Val "index");
                   CallContents 1 "pages/foo" false] 2 (Ok Null) s Hr)).
Defined.

(** The request [pages/foo/*.md]. *)
Lemma contents_pattern_listing_witness :
  wf loader ∧
  truthy (isDir (Val (normalize "pages/foo/*.md"))) = false ∧
  isGlob (dirname (normalize "pages/foo/*.md")) = false ∧
  truthy (isDir (Val (dirname (normalize "pages/foo/*.md")))) = true ∧
  contents 1 "pages/foo/*.md" false loader =
    (Ok [Obj 0], (contents 1 "pages/foo/*.md" false loader).2) ∧
  ∃ names, readdir "pages/foo" = Some names ∧
    Forall2 (resolves (contents 1 "pages/foo/*.md" false loader).2) [Obj 0]
      (files_in "pages/foo" (selected names "*.md") ++
       ((λ vf, join "pages/foo" (v_name vf)) <$> _virtual loader "pages/foo" "*.md")).
Proof.
  assert (Hrun : contents 1 "pages/foo/*.md" false loader =
            (Ok [Obj 0], (contents 1 "pages/foo/*.md" false loader).2))
    by (vm_compute; reflexivity).
  split; [apply loader_wf|]. split; [reflexivity|]. split; [reflexivity|].
  split; [reflexivity|]. split; [exact Hrun|].
  exact (contents_pattern_listing 1 "pages/foo/*.md" loader [Obj 0] _ loader_wf
           eq_refl eq_refl eq_refl Hrun).
Defined.

(** The walk of [pages] with [recurse], under a pattern that keeps [foo]. *)
Lemma recursion_after_root_witness :
  truthy (isDir (Val "pages")) = true ∧
  _contents 3 "pages" "f*" true loader =
    match _contents 1 "pages" "f*" false loader with
    | (Ok out1, s1) =>
        walk 2 (dirs_in "pages" (selected (default [] (readdir "pages")) "f*"))
          "*" true out1 s1
    | (Throw e, s1) => (Throw e, s1)
    | (OutOfFuel, s1) => (OutOfFuel, s1)
    end.
Proof.
  split; [reflexivity|].
  exact (recursion_after_root 2 "pages" "f*" loader eq_refl).
Defined.

(** [index.html] of [pages/foo] is on the storage and is registered. *)
Lemma real_file_recorded_without_generator_witness :
  wf loader ∧ truthy (isDir (Val "pages/foo")) = true ∧
  readdir "pages/foo" =
    Some ["data.yaml"; "img"; "index.html"; "notes.txt"; "post.md"] ∧
  _contents 1 "pages/foo" "*" false loader =
    (Ok [Obj 0; Obj 1; Obj 2; Obj 3; Obj 1],
     (_contents 1 "pages/foo" "*" false loader).2) ∧
  truthy (isDir (Val (join "pages/foo" "index.html"))) = false ∧
  _cache loader !! join "pages/foo" "index.html" = None ∧
  ∃ o, Obj 1 ∈ [Obj 0; Obj 1; Obj 2; Obj 3; Obj 1] ∧
    heap (_contents 1 "pages/foo" "*" false loader).2 !! 1 = Some o ∧
    path o = join "pages/foo" "index.html" ∧ gen o = Undefined.
Proof.
  assert (Hrun : _contents 1 "pages/foo" "*" false loader =
            (Ok [Obj 0; Obj 1; Obj 2; Obj 3; Obj 1],
             (_contents 1 "pages/foo" "*" false loader).2))
    by (vm_compute; reflexivity).
  assert (Hin : "index.html" ∈
            selected ["data.yaml"; "img"; "index.html"; "notes.txt"; "post.md"] "*")
    by (vm_compute; repeat constructor).
  split; [apply loader_wf|]. split; [reflexivity|]. split; [reflexivity|].
  split; [exact Hrun|]. split; [reflexivity|]. split; [reflexivity|].
  assert (Hroot : truthy (isDir (Val "pages/foo")) = true) by reflexivity.
  assert (Hnames : readdir "pages/foo" =
            Some ["data.yaml"; "img"; "index.html"; "notes.txt"; "post.md"]) by reflexivity.
  assert (Hfile : truthy (isDir (Val (join "pages/foo" "index.html"))) = false)
    by reflexivity.
  destruct (real_file_recorded_without_generator 1 "pages/foo" "*" false loader _ _ _
              "index.html" loader_wf Hroot Hnames Hrun Hin Hfile)
    as (v & Hv & Hget & Hrec).
  vm_compute in Hget. injection Hget as <-.
  destruct Hrec as (o & _ & Ho & Hp & Hgen).
  exists o. split_and!; [done..|]. by apply Hgen.
Defined.

(** The same for the file [constructor] of the current directory, whose
    path is a key that the cache object inherits: its entry is the
    built-in, and the loader holds no object for it. *)
Example real_file_under_an_inherited_key :
  truthy (isDir (Val ".")) = true ∧
  readdir "." = Some ["a*"; "constructor"; "pages"; "valueOf"] ∧
  truthy (isDir (Val (join "." "constructor"))) = false ∧
  join "." "constructor" = "constructor" ∧ inherited "constructor" = true ∧
  let '(r, s') := _contents 1 "." "*" false loader in
  r = Ok [Builtin "constructor"; Builtin "valueOf"] ∧
  cache_get s' "constructor" = Some (Builtin "constructor") ∧
  _cache s' !! "constructor" = None ∧ heap s' = [].
Proof. by vm_compute. Qed.

(** The calls of the examples, run one after the other from a new loader:
    what the further properties say of the result. *)
Example after_a_history :
  let cs := [CallRegister "pages/*" "index.html" (Val "index");
             CallContents 3 "pages" true;
             CallGet 1 "pages/foo/missing.md";
             CallRegister "pages/*" "draft-*.md" (Val "drafts");
             CallGet 1 "pages/foo/draft-1.md";
             CallRead 2] in
  let s : ContentLoader.t string string := after_all cs (ContentLoader.new "pages") in
  path <$> heap s =
    ["pages/foo/data.yaml"; "pages/foo/index.html"; "pages/foo/notes.txt";
     "pages/foo/post.md"; "pages/foo/img/logo.png"; "pages/foo/draft-1.md"] ∧
  gen <$> heap s = [Undefined; Undefined; Undefined; Undefined; Undefined; Val "drafts"] ∧
  _gen s = _gen loader.
Proof. by vm_compute. Qed.
End MoreExamples.
